(** * A shallow embedding of data_tooling: the shard consolidation script
      [cc_pseudo_crawl/finalise.py] and the filtering dashboard
      [ac_dc/visualization/visualization.py]. *)

From stdpp Require Import base gmap strings list fin_maps.
From Stdlib Require Import QArith Qround Ascii.

Open Scope list_scope.

(* ------------------------------------------------------------------ *)
(** ** Python results *)

(** The exceptions the modelled code can raise. *)
Inductive exn :=
| AssertionError
| KeyError
| TypeError
| UnboundLocalError
| IndexError
| ValueError.

(** A Python computation either returns a value or raises. *)
Inductive pyres (A : Type) :=
| POk (a : A)
| PErr (e : exn).
Arguments POk {A} a.
Arguments PErr {A} e.

Definition pbind {A B} (m : pyres A) (k : A -> pyres B) : pyres B :=
  match m with
  | POk a => k a
  | PErr e => PErr e
  end.

Notation "'let!' x ':=' m 'in' k" := (pbind m (fun x => k))
  (at level 200, x name, m at level 100, k at level 200).

Fixpoint mapM {A B} (f : A -> pyres B) (l : list A) : pyres (list B) :=
  match l with
  | [] => POk []
  | x :: l' => let! y := f x in let! ys := mapM f l' in POk (y :: ys)
  end.

(** [str.split(sep)] for a one-character separator: [""] splits to
    [[""]] and adjacent separators give empty pieces. *)
Fixpoint py_split_acc (sep : ascii) (cur : string) (s : string) : list string :=
  match s with
  | EmptyString => [cur]
  | String c s' =>
      if Ascii.eqb c sep then cur :: py_split_acc sep EmptyString s'
      else py_split_acc sep (cur +:+ String c EmptyString) s'
  end.

Definition py_split (sep : ascii) (s : string) : list string :=
  py_split_acc sep EmptyString s.

(** [x in xs] for a list of strings. *)
Definition py_in (x : string) (xs : list string) : bool :=
  existsb (fun y => bool_decide (x = y)) xs.

(* ------------------------------------------------------------------ *)
(** ** cc_pseudo_crawl/finalise.py *)

Module Finalise.

(** A row of the crawl datasets, with the columns the script reads or
    writes; [id_] and [external_ids] are absent before consolidation. *)
Record record := mk_record {
  url : string;
  fetch_time : Z;
  external_urls : list string;
  id_ : option nat;
  external_ids : option (list nat)
}.

Definition set_id (r : record) (i : nat) : record :=
  mk_record (url r) (fetch_time r) (external_urls r) (Some i) (external_ids r).

Definition set_external_ids (r : record) (l : list nat) : record :=
  mk_record (url r) (fetch_time r) (external_urls r) (id_ r) (Some l).

(** The parsed command line. *)
Record args := mk_args {
  dataset : string;
  datasets_to_concatenate : list string
}.

(** [get_args]: argparse has read the values of [--dataset] and of
    [--datasets-to-concatenate]; the latter goes through its [type]
    function [lambda s: s.split(',')], then the assertion is checked. *)
Definition get_args (dataset_arg dtc_arg : string) : pyres args :=
  let a := mk_args dataset_arg (py_split "," dtc_arg) in
  if py_in (dataset a) (datasets_to_concatenate a) then PErr AssertionError
  else POk a.

(** Python's [max(a, b)] on [(timestamp, id)] tuples: the second argument
    is kept only when it compares strictly greater (lexicographically). *)
Definition tuple_gt (a b : Z * nat) : bool :=
  bool_decide (b.1 < a.1)%Z || (bool_decide (a.1 = b.1) && bool_decide (b.2 < a.2)%nat).

Definition py_max (a b : Z * nat) : Z * nat :=
  if tuple_gt b a then b else a.

(** The canonical index [url_to_id_and_timestamp]: url -> (id, timestamp). *)
Abbreviation index := (gmap string (nat * Z)).

(** Reading [data["url"]], [data["id"]], [data["fetch_time"]]. *)
Definition row_keys (r : record) : pyres (string * nat * Z) :=
  match id_ r with
  | Some i => POk (url r, i, fetch_time r)
  | None => PErr KeyError
  end.

(** One iteration of the first loop of [compute_external_ids_]. *)
Definition index_add (m : index) (k : string * nat * Z) : index :=
  let '(u, i, t) := k in
  match m !! u with
  | Some (old_id, old_time_stamp) =>
      let '(new_timestamp, new_id) := py_max (t, i) (old_time_stamp, old_id) in
      <[u := (new_id, new_timestamp)]> m
  | None => <[u := (i, t)]> m
  end.

Definition build_index (ds : list record) : pyres index :=
  let! ks := mapM row_keys ds in POk (foldl index_add ∅ ks).

(** The list comprehension of the second loop, for one row. *)
Definition resolved_ids (m : index) (r : record) : list nat :=
  map (fun u => match m !! u with Some p => p.1 | None => 0%nat end)
      (filter (fun u => is_Some (m !! u)) (external_urls r)).

(** [compute_external_ids_(ds)] where [ds] is a Hugging Face [Dataset] (as
    in [main]): iterating a [Dataset] yields a freshly built dict per row,
    so [data["external_ids"] = ...] writes into that copy and the dataset
    returned is the one passed in. *)
Definition compute_external_ids_ (ds : list record) : pyres (list record) :=
  let! m := build_index ds in
  let _row_copies := map (fun data => set_external_ids data (resolved_ids m data)) ds in
  POk ds.

(** The same loop over a Python list of dicts, where the assignment
    updates the row itself. *)
Definition compute_external_ids_on_list (ds : list record) : pyres (list record) :=
  let! m := build_index ds in
  POk (map (fun data => set_external_ids data (resolved_ids m data)) ds).

(** [assign_id(batch, indices)]: the [id] column of the batch becomes
    [indices]. *)
Definition assign_id (batch : list record) (indices : list nat) : list record :=
  zip_with set_id batch indices.

(** [Dataset.map(f, batched=True, with_indices=True)] with the default
    batch size: [f] is called on consecutive slices with their global
    indices, and the results are concatenated. *)
Fixpoint map_batched_with_indices (fuel batch_size offset : nat)
    (f : list record -> list nat -> list record) (ds : list record) : list record :=
  match fuel with
  | O => []
  | S fuel' =>
      match ds with
      | [] => []
      | _ =>
          let batch := take batch_size ds in
          f batch (seq offset (length batch))
            ++ map_batched_with_indices fuel' batch_size (offset + batch_size) f
                 (drop batch_size ds)
      end
  end.

Definition default_batch_size : nat := 1000.

Definition ds_map_assign_id (ds : list record) : list record :=
  map_batched_with_indices (length ds) default_batch_size 0 assign_id ds.

(** The body of [main] after the datasets are loaded: concatenate,
    generate ids, generate external ids. *)
Definition consolidate (datasets : list (list record)) : pyres (list record) :=
  let ds := concat datasets in
  let ds := ds_map_assign_id ds in
  compute_external_ids_ ds.

(** The canonical index that [compute_external_ids_] builds during a
    consolidation of [datasets]. *)
Definition consolidation_index (datasets : list (list record)) : pyres index :=
  build_index (ds_map_assign_id (concat datasets)).

(** The side effects of [main]. *)
Inductive event :=
| LoadDataset (name : string)
| PushToHub (name : string) (ds : list record).

(** [main()]: the hub is a function from dataset names to their train
    split. *)
Definition main (hub : string -> list record) (dataset_arg dtc_arg : string)
    : list event * pyres unit :=
  match get_args dataset_arg dtc_arg with
  | PErr e => ([], PErr e)
  | POk a =>
      let names := datasets_to_concatenate a in
      let loads := map LoadDataset names in
      match consolidate (map hub names) with
      | PErr e => (loads, PErr e)
      | POk ds => (loads ++ [PushToHub (dataset a) ds], POk tt)
      end
  end.

End Finalise.

(* ------------------------------------------------------------------ *)
(** ** ac_dc/visualization/visualization.py *)

Module Visualization.

(** The statistics columns the dashboard knows about. *)
Inductive signal :=
| NumberWords
| RepetitionsRatio
| SpecialCharactersRatio
| StopwordsRatio
| FlaggedWordsRatio
| LangIdScore
| PerplexityScore.

Global Instance signal_eq_dec : EqDecision signal.
Proof. solve_decision. Defined.

(** A statistics cell: a number, or a dict from n-gram length (as a
    string, the JSON key) to value, as [repetitions_ratio] is stored in the
    data file. Floats are modelled by exact rationals. *)
Inductive cell :=
| CNum (v : Q)
| CDict (d : list (string * Q)).

(** A row of the documents DataFrame: its text and its statistics. *)
Record row := mk_row { text : string; cells : signal -> cell }.

(** A DataFrame: the statistics columns present, and the rows. *)
Record frame := mk_frame { columns : list signal; rows : list row }.

Definition empty_frame : frame := mk_frame [] [].

(** The objects the instance refers to: the DataFrames live in a heap and
    [self.docs], [self.docs_checkpoint] are references into it. *)
Record state := mk_state {
  heap : list frame;
  docs : nat;
  docs_checkpoint : nat
}.

Definition frame_at (st : state) (j : nat) : frame := default empty_frame (heap st !! j).
Definition docs_frame (st : state) : frame := frame_at st (docs st).

Definition upd_cells (f : signal -> cell) (s : signal) (c : cell) : signal -> cell :=
  fun t => if decide (t = s) then c else f t.

(** [df[s].iloc[i] = c] *)
Definition set_cell (s : signal) (i : nat) (c : cell) (fr : frame) : frame :=
  mk_frame (columns fr) (alter (fun r => mk_row (text r) (upd_cells (cells r) s c)) i (rows fr)).

(** [df[s] = series]: the series assigned here always comes from a
    DataFrame with the same index, so row [i] receives the [i]-th cell. *)
Definition set_column (s : signal) (cs : list cell) (fr : frame) : frame :=
  mk_frame (columns fr)
    (imap (fun i r => match cs !! i with
                      | Some c => mk_row (text r) (upd_cells (cells r) s c)
                      | None => r
                      end) (rows fr)).

Definition read_col (fr : frame) (s : signal) : list cell := map (fun r => cells r s) (rows fr).

(** Mutating the DataFrame [self.docs] points to. *)
Definition modify_docs (f : frame -> frame) (st : state) : state :=
  mk_state (<[docs st := f (docs_frame st)]> (heap st)) (docs st) (docs_checkpoint st).

(** [self.docs[s] = self.docs_checkpoint[s]] *)
Definition reset_column (s : signal) (st : state) : state :=
  modify_docs (set_column s (read_col (frame_at st (docs_checkpoint st)) s)) st.

(** [for i in range(len(self.docs[s])): self.docs[s].iloc[i] = g(row i)],
    reading row [i] from the current DataFrame at each step. *)
Fixpoint iloc_loop (s : signal) (g : row -> pyres cell) (is : list nat) (st : state)
    : pyres state :=
  match is with
  | [] => POk st
  | i :: is' =>
      match rows (docs_frame st) !! i with
      | Some r => let! c := g r in iloc_loop s g is' (modify_docs (set_cell s i c) st)
      | None => PErr IndexError
      end
  end.

Definition column_loop (s : signal) (g : row -> pyres cell) (st : state) : pyres state :=
  iloc_loop s g (seq 0 (length (rows (docs_frame st)))) st.

Fixpoint dict_get (d : list (string * Q)) (k : string) : option Q :=
  match d with
  | [] => None
  | (k', v) :: d' => if bool_decide (k = k') then Some v else dict_get d' k
  end.

(** [self.docs["repetitions_ratio"].iloc[i][repetitions_length]] *)
Definition select_repetitions (n : string) (r : row) : pyres cell :=
  match cells r RepetitionsRatio with
  | CDict d => match dict_get d n with Some v => POk (CNum v) | None => PErr KeyError end
  | CNum _ => PErr TypeError
  end.

(** The signal computers of [filtering.py], with the instance's models and
    per-language parameters already supplied. *)
Record filtering := mk_filtering {
  get_words_from_document : string -> list string;
  compute_repetitions_ratio : string -> Z -> Q;
  compute_special_characters_ratio : string -> Q;
  compute_stopwords_ratio : list string -> string -> Q;
  compute_flagged_words_ratio : list string -> string -> Q;
  compute_lang_id_pred_score : string -> string * Q;
  compute_perplexity_score : string -> Q
}.

(** The attributes of a [Visualization] instance that the methods read. *)
Record config := mk_config {
  lang_dataset_id : string;
  stopwords : list string;
  flagged_words : list string;
  flt : filtering;
  num_docs : nat;
  max_len_text_display : nat
}.

(** A filter key [(name, cutoff, max_cutoff)] or, for the repetitions
    ratio, [(name, cutoff, max_cutoff, repetitions_length)]. *)
Record key := mk_key {
  key_name : signal;
  key_cutoff : Q;
  key_max : bool;
  key_len : option string
}.

(** [get_cond(key, cutoff, max_cutoff)] on [self.docs]. *)
Definition get_cond (fr : frame) (k : key) : pyres (list bool) :=
  mapM (fun c => match c with
                 | CNum v => POk (if key_max k then Qle_bool v (key_cutoff k)
                                  else Qle_bool (key_cutoff k) v)
                 | CDict _ => PErr TypeError
                 end) (read_col fr (key_name k)).

(** The figure [print_discared_by_cond(cond)] displays:
    [(len(cond) - np.sum(1*cond)) / len(cond) * 100]. With no documents
    numpy gives nan; the division in Q gives 0. *)
Definition discarded_pct (cond : list bool) : Q :=
  ((inject_Z (Z.of_nat (length cond)) - inject_Z (Z.of_nat (length (filter (fun b => b = true) cond))))
   / inject_Z (Z.of_nat (length cond)) * 100)%Q.

(** The locals [set_sliders] accumulates: the current objects, [keys],
    [conds] (a dict, in insertion order) and the figures displayed. *)
Record acc := mk_acc {
  st : state;
  keys : list key;
  conds : list (signal * list (list bool));
  captions : list Q
}.

Definition with_state (a : acc) (s' : state) : acc :=
  mk_acc s' (keys a) (conds a) (captions a).

Definition set_conds (a : acc) (s : signal) (cs : list (list bool)) : acc :=
  mk_acc (st a) (keys a) (conds a ++ [(s, cs)]) (captions a).

(** [keys.append(new_key)], [cond = get_cond(...)],
    [print_discared_by_cond(cond)]. *)
Definition add_rule (k : key) (a : acc) : pyres (list bool * acc) :=
  let! c := get_cond (docs_frame (st a)) k in
  POk (c, mk_acc (st a) (keys a ++ [k]) (conds a) (captions a ++ [discarded_pct c])).

(** The widget values the user has set. *)
Record ui := mk_ui {
  cutoff_min_number_words : Q;
  cutoff_max_number_words : Q;
  repetitions_length : string;
  cutoff_repetitions_ratio : Q;
  cutoff_special_characters_ratio : Q;
  stopwords_file : option string;
  cutoff_stopwords_ratio : Q;
  flagged_words_file : option string;
  cutoff_flagged_words_ratio : Q;
  cutoff_lang_id_score : Q;
  cutoff_perplexity_score : Q
}.

Definition number_words_block (u : ui) (a : acc) : pyres acc :=
  let! p1 := add_rule (mk_key NumberWords (cutoff_min_number_words u) false None) a in
  let! p2 := add_rule (mk_key NumberWords (cutoff_max_number_words u) true None) p1.2 in
  POk (set_conds p2.2 NumberWords [p1.1; p2.1]).

(** The selectbox offers the keys of the first row's dict; the user's
    choice is [repetitions_length u]. *)
Definition repetitions_block (u : ui) (a : acc) : pyres acc :=
  let n := repetitions_length u in
  let st1 := reset_column RepetitionsRatio (st a) in
  let! st2 := column_loop RepetitionsRatio (select_repetitions n) st1 in
  let! p := add_rule (mk_key RepetitionsRatio (cutoff_repetitions_ratio u) true (Some n))
              (with_state a st2) in
  POk (set_conds p.2 RepetitionsRatio [p.1]).

Definition simple_block (s : signal) (cutoff : Q) (max_cutoff : bool) (a : acc) : pyres acc :=
  let! p := add_rule (mk_key s cutoff max_cutoff None) a in
  POk (set_conds p.2 s [p.1]).

(** An uploaded lexicon: reset the column from the checkpoint, then
    recompute it for every row from its text. *)
Definition lexicon_swap (s : signal) (compute : string -> Q) (st0 : state) : pyres state :=
  column_loop s (fun r => POk (CNum (compute (text r)))) (reset_column s st0).

(** [set(content.split("\n"))] *)
Definition lexicon_of_file (content : string) : list string :=
  py_split (Ascii.ascii_of_nat 10) content.

Definition stopwords_block (cfg : config) (u : ui) (a : acc) : pyres acc :=
  let! st1 := match stopwords_file u with
              | Some content =>
                  lexicon_swap StopwordsRatio
                    (compute_stopwords_ratio (flt cfg) (lexicon_of_file content)) (st a)
              | None => POk (st a)
              end in
  simple_block StopwordsRatio (cutoff_stopwords_ratio u) false (with_state a st1).

Definition flagged_words_block (cfg : config) (u : ui) (a : acc) : pyres acc :=
  let! st1 := match flagged_words_file u with
              | Some content =>
                  lexicon_swap FlaggedWordsRatio
                    (compute_flagged_words_ratio (flt cfg) (lexicon_of_file content)) (st a)
              | None => POk (st a)
              end in
  simple_block FlaggedWordsRatio (cutoff_flagged_words_ratio u) true (with_state a st1).

Definition when_present (b : bool) (f : acc -> pyres acc) (a : acc) : pyres acc :=
  if b then f a else POk a.

(** [set_sliders()]: the blocks in source order, each run when its column
    is in [list(self.docs)], read once at the start. *)
Definition set_sliders (cfg : config) (u : ui) (st0 : state) : pyres acc :=
  let cols := columns (docs_frame st0) in
  let present s := bool_decide (s ∈ cols) in
  let! a1 := when_present (present NumberWords) (number_words_block u) (mk_acc st0 [] [] []) in
  let! a2 := when_present (present RepetitionsRatio) (repetitions_block u) a1 in
  let! a3 := when_present (present SpecialCharactersRatio)
               (simple_block SpecialCharactersRatio (cutoff_special_characters_ratio u) true) a2 in
  let! a4 := when_present (present StopwordsRatio) (stopwords_block cfg u) a3 in
  let! a5 := when_present (present FlaggedWordsRatio) (flagged_words_block cfg u) a4 in
  let! a6 := when_present (present LangIdScore)
               (simple_block LangIdScore (cutoff_lang_id_score u) false) a5 in
  when_present (present PerplexityScore)
    (simple_block PerplexityScore (cutoff_perplexity_score u) true) a6.

(** [np.all(all_conds, axis=0)] at document [i], with [all_conds] the
    flattened values of [conds]. *)
Definition all_conds_at (cs : list (signal * list (list bool))) (i : nat) : bool :=
  forallb (fun c => default false (c !! i)) (concat (map snd cs)).

(** [filtering_of_docs()]: the sliders, then the retained mask. *)
Definition filtering_of_docs (cfg : config) (u : ui) (st0 : state)
    : pyres (acc * list bool) :=
  let! a := set_sliders cfg u st0 in
  POk (a, map (all_conds_at (conds a)) (seq 0 (length (rows (docs_frame (st a)))))).

Definition truncation_note : string :=
  " [...] [THIS LONG TEXT HAS BEEN TRUNCATED FOR DISPLAY REASONS]".

Definition truncate_row (cfg : config) (r : row) : row :=
  if Nat.ltb (max_len_text_display cfg) (String.length (text r))
  then mk_row (String.substring 0 (max_len_text_display cfg) (text r) +:+ truncation_note) (cells r)
  else r.

(** [open_data()] for the documents (the word table is not modelled):
    [self.docs_checkpoint = pd.DataFrame(docs)] and then
    [self.docs = self.docs_checkpoint], one DataFrame for both names. *)
Definition open_data (cfg : config) (data : frame) : state :=
  let n := Nat.min (num_docs cfg) (length (rows data)) in
  let fr := mk_frame (columns data) (map (truncate_row cfg) (take n (rows data))) in
  mk_state [fr] 0 0.

(** Strict comparison of rationals. *)
Definition Qlt_bool (a b : Q) : bool := negb (Qle_bool b a).

(** [round(x, 3)]: to the nearest multiple of 1/1000, ties to even. *)
Definition round3 (q : Q) : Q :=
  let x := (q * 1000)%Q in
  let f := Qfloor x in
  let r := (x - inject_Z f)%Q in
  let n := if Qlt_bool r (1 # 2) then f
           else if Qlt_bool (1 # 2) r then (f + 1)%Z
           else if Z.even f then f else (f + 1)%Z in
  (n # 1000)%Q.

Fixpoint digits_value (acc : Z) (s : string) : option Z :=
  match s with
  | EmptyString => Some acc
  | String c s' =>
      let d := (Z.of_nat (Ascii.nat_of_ascii c) - 48)%Z in
      if (0 <=? d)%Z && (d <=? 9)%Z then digits_value (10 * acc + d)%Z s' else None
  end.

(** [int(s)] on a string of decimal digits (the JSON keys of the
    repetitions dict); anything else raises [ValueError]. *)
Definition py_int (s : string) : pyres Z :=
  match s with
  | EmptyString => PErr ValueError
  | _ => match digits_value 0 s with Some z => POk z | None => PErr ValueError end
  end.

(** [is_doc_discarded(key, score)] *)
Definition is_doc_discarded (k : key) (score : Q) : bool :=
  if key_max k then Qlt_bool (key_cutoff k) score else Qlt_bool score (key_cutoff k).

(** The locals of [analyse_personal_doc] that outlive one iteration of
    the loop over [self.keys]; [None] is an unbound name. *)
Record locals := mk_locals {
  is_discarded : bool;
  flagged_words_ratio : option Q
}.

Definition discard_if (l : locals) (b : bool) : locals :=
  if b then mk_locals true (flagged_words_ratio l) else l.

(** One iteration of [for key in self.keys]. *)
Definition analyse_key (cfg : config) (personal_doc : string) (l : locals) (k : key)
    : pyres locals :=
  let F := flt cfg in
  match key_name k with
  | NumberWords =>
      let words := get_words_from_document F personal_doc in
      POk (discard_if l (is_doc_discarded k (inject_Z (Z.of_nat (length words)))))
  | RepetitionsRatio =>
      let! n := match key_len k with Some len => py_int len | None => PErr IndexError end in
      let repetitions_ratio := round3 (compute_repetitions_ratio F personal_doc n) in
      POk (discard_if l (is_doc_discarded k repetitions_ratio))
  | SpecialCharactersRatio =>
      let special_characters_ratio := round3 (compute_special_characters_ratio F personal_doc) in
      POk (discard_if l (is_doc_discarded k special_characters_ratio))
  | StopwordsRatio =>
      let stopwords_ratio := round3 (compute_stopwords_ratio F (stopwords cfg) personal_doc) in
      POk (discard_if l (is_doc_discarded k stopwords_ratio))
  | FlaggedWordsRatio =>
      let fwr := round3 (compute_flagged_words_ratio F (flagged_words cfg) personal_doc) in
      POk (mk_locals (is_discarded l || is_doc_discarded k fwr) (Some fwr))
  | LangIdScore =>
      let '(lang_pred_dataset_id, score) := compute_lang_id_pred_score F personal_doc in
      let _lang_id_score := round3 score in
      (* the test reads [flagged_words_ratio], not [lang_id_score] *)
      match flagged_words_ratio l with
      | None => PErr UnboundLocalError
      | Some fwr =>
          POk (discard_if l (is_doc_discarded k fwr
                             || negb (bool_decide (lang_dataset_id cfg = lang_pred_dataset_id))))
      end
  | PerplexityScore =>
      let perplexity_score := round3 (compute_perplexity_score F personal_doc) in
      POk (discard_if l (is_doc_discarded k perplexity_score))
  end.

Fixpoint foldM {A B} (f : A -> B -> pyres A) (a : A) (l : list B) : pyres A :=
  match l with
  | [] => POk a
  | b :: l' => let! a' := f a b in foldM f a' l'
  end.

(** [analyse_personal_doc()]: [None] when the text area is empty (nothing
    is reported), otherwise whether the document "is discarded". *)
Definition analyse_personal_doc (cfg : config) (ks : list key) (personal_doc : string)
    : pyres (option bool) :=
  if bool_decide (personal_doc = EmptyString) then POk None
  else let! l := foldM (analyse_key cfg personal_doc) (mk_locals false None) ks in
       POk (Some (is_discarded l)).

(** A rule evaluated on one document in isolation, as the admission
    claims state it: a max-cutoff rule passes iff value <= threshold, a
    min-cutoff rule iff value >= threshold. *)
Definition rule_passes (k : key) (r : row) : Prop :=
  exists v, cells r (key_name k) = CNum v /\
    (if key_max k then (v <= key_cutoff k)%Q else (key_cutoff k <= v)%Q).

Definition rule_fails_b (k : key) (r : row) : bool :=
  match cells r (key_name k) with
  | CNum v => negb (if key_max k then Qle_bool v (key_cutoff k) else Qle_bool (key_cutoff k) v)
  | CDict _ => true
  end.

(** The share of the documents of [fr], in percent, that fail rule [k]
    evaluated in isolation. *)
Definition discard_share (fr : frame) (k : key) : Q :=
  (inject_Z (Z.of_nat (length (filter (fun r => rule_fails_b k r = true) (rows fr))))
   / inject_Z (Z.of_nat (length (rows fr))) * 100)%Q.

(** The lang-id rule of the single-document probe as the specification
    states it, for comparison with [analyse_key]: the document is
    discarded iff the rounded confidence score is below the min-cutoff or
    the predicted label is not the target language. *)
Definition lang_id_discards_spec (cfg : config) (k : key) (doc : string) : bool :=
  let '(pred, score) := compute_lang_id_pred_score (flt cfg) doc in
  Qlt_bool (round3 score) (key_cutoff k) || negb (bool_decide (lang_dataset_id cfg = pred)).

End Visualization.

(* ------------------------------------------------------------------ *)
(** ** Example inputs for the dashboard *)

Module VisualizationExamples.
Import Visualization.

(** Signal computers with constant results, for running the dashboard on
    a DataFrame whose statistics are given. *)
Definition const_filtering (lang : string) (score fwr : Q) : filtering :=
  mk_filtering (fun _ => []) (fun _ _ => 0%Q) (fun _ => 0%Q) (fun _ _ => 0%Q)
    (fun _ _ => fwr) (fun _ => (lang, score)) (fun _ => 0%Q).

Definition ex_cfg : config :=
  mk_config "en" [] [] (const_filtering "en" (9 # 10) 0) 100 1000.

Definition ex_ui (n : string) : ui :=
  mk_ui 10 51 n 1 (2 # 5) None 0 None 1 (1 # 2) 1.

(** A row with the given number of words and special-characters ratio. *)
Definition stats_row (nw sc : Q) : row :=
  mk_row "doc" (fun s => match s with
                         | NumberWords => CNum nw
                         | SpecialCharactersRatio => CNum sc
                         | _ => CNum 0
                         end).

Definition ex_frame : frame :=
  mk_frame [NumberWords; SpecialCharactersRatio]
    [stats_row 3 (1 # 10); stats_row 50 (1 # 2); stats_row 20 (1 # 10)].

(** One document of three words. *)
Definition short_doc_frame : frame := mk_frame [NumberWords] [stats_row 3 0].

(** Slider values for [short_doc_frame]: min-cutoff 4 and max-cutoff 4,
    the largest values the number-of-words sliders offer for it. *)
Definition short_doc_ui : ui :=
  mk_ui 4 4 "10" 1 (2 # 5) None 0 None 1 (1 # 2) 1.

(** One document whose repetitions ratios for n = 5 and n = 10 are
    stored, as in the data file. *)
Definition rep_row : row :=
  mk_row "doc" (fun s => match s with
                         | RepetitionsRatio => CDict [("5", 1 # 10); ("10", 1 # 5)]
                         | _ => CNum 0
                         end).

Definition rep_frame : frame := mk_frame [RepetitionsRatio] [rep_row].

Definition flagged_key : key := mk_key FlaggedWordsRatio 1 true None.
Definition lang_key : key := mk_key LangIdScore (1 # 2) false None.

End VisualizationExamples.

(* ------------------------------------------------------------------ *)
(** ** The per-filter displays of [filtering_of_docs] *)

Module VisualizationDisplay.
Import Visualization.

(** The statistics columns in the order the dashboard handles them. *)
Definition signal_order : list signal :=
  [NumberWords; RepetitionsRatio; SpecialCharactersRatio; StopwordsRatio;
   FlaggedWordsRatio; LangIdScore; PerplexityScore].

(** [conds[s]] on the dict [conds], each of whose keys [set_sliders]
    assigns once. *)
Fixpoint conds_get (cs : list (signal * list (list bool))) (s : signal)
    : pyres (list (list bool)) :=
  match cs with
  | [] => PErr KeyError
  | (s', l) :: cs' => if decide (s = s') then POk l else conds_get cs' s
  end.

(** [np.all(conds_s, axis=0)] over [n] documents. *)
Definition np_all_axis0 (l : list (list bool)) (n : nat) : list bool :=
  map (fun i => forallb (fun c => default false (c !! i)) l) (seq 0 n).

(** "Display discarded documents by filter": for each statistics column
    of [list(self.docs)], in order,
    [np.invert(np.all(conds[s], axis=0))], the mask given to
    [display_dataset]. *)
Definition discarded_by_filter (fr : frame) (cs : list (signal * list (list bool)))
    : pyres (list (signal * list bool)) :=
  mapM (fun s => let! l := conds_get cs s in
                 POk (s, map negb (np_all_axis0 l (length (rows fr)))))
    (filter (fun s => s ∈ columns fr) signal_order).

(** [np.max(column)] over a numeric column; [None] where numpy raises
    (an empty column) or the cells are not numbers. *)
Fixpoint np_max (cs : list cell) : option Q :=
  match cs with
  | [] => None
  | [CNum v] => Some v
  | CNum v :: cs' =>
      match np_max cs' with
      | Some m => Some (if Qle_bool v m then m else v)
      | None => None
      end
  | CDict _ :: _ => None
  end.

(** [int(x)] on a float: truncation toward zero. *)
Definition py_int_of_float (q : Q) : Z := Z.quot (Qnum q) (Zpos (Qden q)).

(** An integer slider value. *)
Definition is_int (q : Q) : bool := Pos.eqb (Qden q) 1.

(** The values the two number-of-words sliders of [set_sliders] can
    return: with [max_nb_words = int(np.max(self.docs["number_words"])) + 1],
    [st.slider(.., 0, min(max_nb_words, 500), 0)] for the min-cutoff and
    [st.slider(.., 0, max_nb_words, max_nb_words)] for the max-cutoff. *)
Definition number_words_sliders_ok (fr : frame) (u : ui) : bool :=
  match np_max (read_col fr NumberWords) with
  | Some m =>
      let mx := (py_int_of_float m + 1)%Z in
      is_int (cutoff_min_number_words u) && is_int (cutoff_max_number_words u) &&
      Qle_bool 0 (cutoff_min_number_words u) &&
      Qle_bool (cutoff_min_number_words u) (inject_Z (Z.min mx 500)) &&
      Qle_bool 0 (cutoff_max_number_words u) &&
      Qle_bool (cutoff_max_number_words u) (inject_Z mx)
  | None => false
  end.





End VisualizationDisplay.

(* ------------------------------------------------------------------ *)
(** *** Facts about the consolidation script *)

Section FinaliseFacts.
Import Finalise.

Lemma py_in_spec (x : string) (xs : list string) : py_in x xs = true <-> x ∈ xs.
Proof.
  unfold py_in. induction xs as [|y xs IH]; simpl.
  - split; [discriminate | intros H; inversion H].
  - rewrite orb_true_iff, IH, elem_of_cons. case_bool_decide; naive_solver.
Qed.

Lemma py_split_acc_nonempty (sep : ascii) (cur s : string) : py_split_acc sep cur s <> [].
Proof.
  revert cur. induction s as [|c s IH]; intros cur; simpl; [discriminate|].
  destruct (Ascii.eqb c sep); [discriminate | apply IH].
Qed.

(** [py_max] is the maximum of a total order, hence commutative and
    associative. *)
Ltac tuple_cases :=
  unfold py_max, tuple_gt; simpl;
  repeat case_bool_decide; simpl; try reflexivity;
  try (exfalso; lia); try (f_equal; lia).

Lemma py_max_comm (a b : Z * nat) : py_max a b = py_max b a.
Proof. destruct a as [t1 i1], b as [t2 i2]. tuple_cases. Qed.

Lemma py_max_assoc (a b c : Z * nat) : py_max a (py_max b c) = py_max (py_max a b) c.
Proof.
  destruct a as [t1 i1], b as [t2 i2], c as [t3 i3].
  unfold py_max at 2 4. unfold tuple_gt at 1 2. simpl.
  repeat case_bool_decide; simpl; tuple_cases.
Qed.

Definition swap_pair (p : nat * Z) : Z * nat := (p.2, p.1).
Definition unswap_pair (p : Z * nat) : nat * Z := (p.2, p.1).

(** The value stored for a url after one more record with that url. *)
Definition index_upd (o : option (nat * Z)) (p : nat * Z) : nat * Z :=
  match o with
  | Some q => unswap_pair (py_max (swap_pair p) (swap_pair q))
  | None => p
  end.

Lemma index_add_eq (m : index) (u : string) (i : nat) (t : Z) :
  index_add m (u, i, t) = <[u := index_upd (m !! u) (i, t)]> m.
Proof.
  unfold index_add. destruct (m !! u) as [[oi ot]|]; simpl; [|reflexivity].
  unfold swap_pair, unswap_pair; simpl. by destruct (py_max (t, i) (ot, oi)).
Qed.

Lemma index_upd_comm (o : option (nat * Z)) (a b : nat * Z) :
  index_upd (Some (index_upd o a)) b = index_upd (Some (index_upd o b)) a.
Proof.
  destruct a as [ai at_], b as [bi bt].
  destruct o as [[oi ot]|]; simpl; unfold swap_pair, unswap_pair; simpl.
  - remember (py_max (at_, ai) (ot, oi)) as x eqn:Hx.
    remember (py_max (bt, bi) (ot, oi)) as y eqn:Hy.
    destruct x as [xt xi], y as [yt yi]; simpl.
    rewrite Hx, Hy, !py_max_assoc, (py_max_comm (bt, bi) (at_, ai)). reflexivity.
  - rewrite py_max_comm. by destruct (py_max (at_, ai) (bt, bi)).
Qed.

Lemma index_add_comm (m : index) (a b : string * nat * Z) :
  index_add (index_add m a) b = index_add (index_add m b) a.
Proof.
  destruct a as [[ua ia] ta], b as [[ub ib] tb].
  rewrite !index_add_eq.
  destruct (decide (ua = ub)) as [<-|Hne].
  - rewrite !lookup_insert_eq, !insert_insert_eq.
    f_equal. apply index_upd_comm.
  - rewrite !lookup_insert_ne by congruence.
    apply insert_insert_ne. congruence.
Qed.

Lemma foldl_index_add_perm (ks1 ks2 : list (string * nat * Z)) (m : index) :
  ks1 ≡ₚ ks2 -> foldl index_add m ks1 = foldl index_add m ks2.
Proof.
  intros Hp. revert m. induction Hp as [|k l1 l2 _ IH|a b l|l1 l2 l3 _ IH1 _ IH2];
    intros m; simpl.
  - reflexivity.
  - apply IH.
  - by rewrite index_add_comm.
  - by rewrite IH1, IH2.
Qed.

Definition keys_of (r : record) : string * nat * Z :=
  (url r, default 0%nat (id_ r), fetch_time r).

Definition has_id (r : record) : bool :=
  match id_ r with Some _ => true | None => false end.

Lemma mapM_row_keys (ds : list record) :
  mapM row_keys ds =
    if forallb has_id ds then POk (map keys_of ds) else PErr KeyError.
Proof.
  induction ds as [|r ds IH]; simpl; [reflexivity|].
  unfold row_keys at 1, has_id at 1, keys_of at 1.
  destruct (id_ r) as [i|]; simpl; [|reflexivity].
  rewrite IH. by destruct (forallb has_id ds).
Qed.

Lemma forallb_perm {A} (f : A -> bool) (l1 l2 : list A) :
  l1 ≡ₚ l2 -> forallb f l1 = forallb f l2.
Proof.
  intros Hp. induction Hp; simpl; try congruence.
  by destruct (f x), (f y).
Qed.

Lemma build_index_perm (ds1 ds2 : list record) :
  ds1 ≡ₚ ds2 -> build_index ds1 = build_index ds2.
Proof.
  intros Hp. unfold build_index. rewrite !mapM_row_keys.
  rewrite (forallb_perm _ _ _ Hp).
  destruct (forallb has_id ds2); simpl; [|reflexivity].
  f_equal. apply foldl_index_add_perm. by apply Permutation_map.
Qed.

Lemma map_batched_nil (fuel bs off : nat) f :
  map_batched_with_indices fuel bs off f [] = [].
Proof. by destruct fuel. Qed.

(** Batching does not matter: every row receives its global index. *)
Lemma map_batched_assign_id (fuel bs off : nat) (ds : list record) :
  (0 < bs)%nat -> (length ds <= fuel)%nat ->
  map_batched_with_indices fuel bs off assign_id ds
  = zip_with set_id ds (seq off (length ds)).
Proof.
  intros Hbs. revert off ds. induction fuel as [|fuel IH]; intros off ds Hlen.
  - destruct ds; simpl in *; [reflexivity | lia].
  - destruct ds as [|r ds']; [reflexivity|].
    remember (r :: ds') as l eqn:Hl.
    assert (Hmatch : map_batched_with_indices (S fuel) bs off assign_id l
      = assign_id (take bs l) (seq off (length (take bs l)))
          ++ map_batched_with_indices fuel bs (off + bs) assign_id (drop bs l))
      by (subst l; reflexivity).
    rewrite Hmatch. unfold assign_id.
    destruct (decide (bs <= length l)%nat) as [Hle|Hgt].
    + rewrite IH by (rewrite length_drop; subst l; simpl in *; lia).
      rewrite length_take, length_drop.
      replace (min bs (length l)) with bs by lia.
      transitivity (zip_with set_id (take bs l ++ drop bs l)
                      (seq off bs ++ seq (off + bs) (length l - bs))).
      * symmetry. apply zip_with_app. rewrite length_take, length_seq. lia.
      * rewrite take_drop, <- seq_app. f_equal. f_equal. lia.
    + rewrite take_ge, drop_ge by lia. rewrite map_batched_nil, app_nil_r. reflexivity.
Qed.

Lemma ds_map_assign_id_eq (ds : list record) :
  ds_map_assign_id ds = zip_with set_id ds (seq 0 (length ds)).
Proof.
  unfold ds_map_assign_id, default_batch_size.
  apply map_batched_assign_id; lia.
Qed.

Lemma forallb_has_id_set_id (ds : list record) (start : nat) :
  forallb has_id (zip_with set_id ds (seq start (length ds))) = true.
Proof.
  revert start. induction ds as [|r ds IH]; intros start; simpl; [reflexivity|].
  apply IH.
Qed.

(** The whole consolidation: rows in concatenation order, each carrying
    its position as id, and nothing else changed. *)
Lemma consolidate_eq (shards : list (list record)) :
  consolidate shards
  = POk (zip_with set_id (concat shards) (seq 0 (length (concat shards)))).
Proof.
  unfold consolidate, compute_external_ids_, build_index.
  rewrite ds_map_assign_id_eq, mapM_row_keys, forallb_has_id_set_id.
  reflexivity.
Qed.

Lemma lookup_zip_set_id (ds : list record) (start i : nat) (r : record) :
  ds !! i = Some r ->
  zip_with set_id ds (seq start (length ds)) !! i = Some (set_id r (start + i)).
Proof.
  intros Hi. rewrite lookup_zip_with, Hi. simpl.
  assert (Hs : seq start (length ds) !! i = Some (start + i)%nat).
  { apply lookup_seq. split; [lia|]. apply lookup_lt_Some in Hi. exact Hi. }
  by rewrite Hs.
Qed.

Lemma map_id_zip_set_id (ds : list record) (start : nat) :
  map id_ (zip_with set_id ds (seq start (length ds))) = map Some (seq start (length ds)).
Proof.
  revert start. induction ds as [|r ds IH]; intros start; simpl; [reflexivity|].
  f_equal. apply IH.
Qed.

Lemma length_zip_set_id (ds : list record) (start : nat) :
  length (zip_with set_id ds (seq start (length ds))) = length ds.
Proof. rewrite length_zip_with, length_seq. lia. Qed.

End FinaliseFacts.

(* ------------------------------------------------------------------ *)
(** *** More facts about the consolidation script *)

Section FinaliseMoreFacts.
Import Finalise.

Lemma map_fmap {A B} (f : A -> B) (l : list A) : map f l = f <$> l.
Proof. induction l as [|x l IH]; simpl; [reflexivity | by rewrite IH]. Qed.

Lemma string_app_assoc (a b c : string) : (a +:+ b) +:+ c = a +:+ (b +:+ c).
Proof. induction a as [|x a IH]; [reflexivity | exact (f_equal (String x) IH)]. Qed.

Lemma string_app_empty_r (a : string) : a +:+ EmptyString = a.
Proof. induction a as [|x a IH]; [reflexivity | exact (f_equal (String x) IH)]. Qed.

Lemma list_ascii_of_string_app (a b : string) :
  String.list_ascii_of_string (a +:+ b) = String.list_ascii_of_string a ++ String.list_ascii_of_string b.
Proof. induction a as [|x a IH]; [reflexivity | exact (f_equal (cons x) IH)]. Qed.

(** Joining the pieces of [str.split] with the separator gives the
    string back. *)
Lemma py_split_acc_join (sep : ascii) (cur s : string) :
  String.concat (String sep EmptyString) (py_split_acc sep cur s) = cur +:+ s.
Proof.
  revert cur. induction s as [|c s IH]; intros cur; simpl.
  - by rewrite string_app_empty_r.
  - destruct (Ascii.eqb c sep) eqn:Ec.
    + apply Ascii.eqb_eq in Ec as ->.
      destruct (py_split_acc sep EmptyString s) as [|p ps] eqn:Es;
        [by apply py_split_acc_nonempty in Es|].
      change (cur +:+ (String sep EmptyString +:+
                String.concat (String sep EmptyString) (p :: ps)) = cur +:+ String sep s).
      rewrite <- Es, IH. reflexivity.
    + rewrite IH, string_app_assoc. reflexivity.
Qed.

(** No piece of [str.split(sep)] contains [sep]. *)
Lemma py_split_acc_no_sep (sep : ascii) (cur s : string) :
  sep ∉ String.list_ascii_of_string cur ->
  Forall (fun p => sep ∉ String.list_ascii_of_string p) (py_split_acc sep cur s).
Proof.
  revert cur. induction s as [|c s IH]; intros cur Hcur; simpl.
  - by constructor.
  - destruct (Ascii.eqb c sep) eqn:Ec.
    + constructor; [exact Hcur|]. apply IH. intros Hin. inversion Hin.
    + apply IH. rewrite list_ascii_of_string_app, elem_of_app. simpl.
      intros [Hin|Hin]; [exact (Hcur Hin)|].
      apply list_elem_of_singleton in Hin as ->. by rewrite Ascii.eqb_refl in Ec.
Qed.

(** Lexicographic order on [(fetch_time, id)] pairs, as Python compares
    tuples. *)
Definition lex_le (a b : Z * nat) : Prop :=
  (a.1 < b.1)%Z \/ (a.1 = b.1 /\ (a.2 <= b.2)%nat).

Lemma lex_le_refl (a : Z * nat) : lex_le a a.
Proof. right. split; [reflexivity | lia]. Qed.

Lemma lex_le_trans (a b c : Z * nat) : lex_le a b -> lex_le b c -> lex_le a c.
Proof. unfold lex_le. intros [H1|[H1 H1']] [H2|[H2 H2']]; lia. Qed.

Lemma index_upd_spec (o : option (nat * Z)) (p : nat * Z) :
  (index_upd o p = p \/ o = Some (index_upd o p)) /\
  lex_le (swap_pair p) (swap_pair (index_upd o p)) /\
  (forall q, o = Some q -> lex_le (swap_pair q) (swap_pair (index_upd o p))).
Proof.
  destruct p as [pi pt]. destruct o as [[oi ot]|]; simpl.
  - unfold swap_pair, unswap_pair, py_max, tuple_gt, lex_le. simpl.
    repeat case_bool_decide; simpl; split_and!; try (intros q Hq; injection Hq as <-; simpl);
      try (by left); try (by right); lia.
  - split_and!; [by left | apply lex_le_refl | discriminate].
Qed.

Lemma foldl_index_add_none (ks : list (string * nat * Z)) :
  forall (m : index) u, foldl index_add m ks !! u = None <->
    m !! u = None /\ Forall (fun k => k.1.1 <> u) ks.
Proof.
  induction ks as [|[[uk ik] tk] ks IH]; intros m u; cbn [foldl].
  - split; [intros H; split; [exact H | constructor] | tauto].
  - rewrite IH, index_add_eq, Forall_cons. simpl.
    destruct (decide (uk = u)) as [->|Hne].
    + rewrite lookup_insert_eq. split; [intros [? _]; discriminate | tauto].
    + rewrite lookup_insert_ne by congruence. tauto.
Qed.

Lemma foldl_index_add_some (ks : list (string * nat * Z)) :
  forall (m : index) u i t, foldl index_add m ks !! u = Some (i, t) ->
    (m !! u = Some (i, t) \/ (u, i, t) ∈ ks) /\
    (forall i' t', (u, i', t') ∈ ks -> lex_le (t', i') (t, i)) /\
    (forall p, m !! u = Some p -> lex_le (swap_pair p) (t, i)).
Proof.
  induction ks as [|[[uk ik] tk] ks IH]; intros m u i t H; cbn [foldl] in H.
  - split_and!; [by left | intros ? ? Hin; inversion Hin |].
    intros p Hp. rewrite H in Hp. injection Hp as <-. apply lex_le_refl.
  - rewrite index_add_eq in H.
    destruct (IH _ _ _ _ H) as (Horig & Hks & Hm). clear IH H.
    destruct (decide (uk = u)) as [->|Hne].
    + rewrite lookup_insert_eq in Horig, Hm.
      specialize (Hm _ eq_refl).
      destruct (index_upd_spec (m !! u) (ik, tk)) as (Hq & Hp & Hold).
      split_and!.
      * destruct Horig as [Horig|Hin].
        -- injection Horig as Horig. rewrite Horig in Hq.
           destruct Hq as [Hq|Hq]; [right; injection Hq as -> ->; constructor | by left].
        -- right. by right.
      * intros i' t' Hin. apply elem_of_cons in Hin as [Heq|Hin]; [|by apply Hks].
        injection Heq as <- <-. eapply lex_le_trans; [exact Hp | exact Hm].
      * intros p Hmp. eapply lex_le_trans; [by apply Hold | exact Hm].
    + rewrite lookup_insert_ne in Horig, Hm by congruence.
      split_and!.
      * destruct Horig as [Horig|Hin]; [by left | right; by right].
      * intros i' t' Hin. apply elem_of_cons in Hin as [Heq|Hin]; [congruence|].
        by apply Hks.
      * exact Hm.
Qed.

Lemma build_index_ok (ds : list record) (m : index) :
  build_index ds = POk m ->
  forallb has_id ds = true /\ m = foldl index_add ∅ (map keys_of ds).
Proof.
  unfold build_index. rewrite mapM_row_keys.
  destruct (forallb has_id ds); simpl; intros H; [|discriminate].
  injection H as <-. split; reflexivity.
Qed.

Lemma keys_of_elem (ds : list record) (u : string) (i : nat) (t : Z) :
  forallb has_id ds = true ->
  (u, i, t) ∈ map keys_of ds <->
  exists r, r ∈ ds /\ url r = u /\ id_ r = Some i /\ fetch_time r = t.
Proof.
  intros Hid. rewrite map_fmap, list_elem_of_fmap. split.
  - intros (r & Hk & Hr). exists r. split; [exact Hr|].
    pose proof (proj1 (forallb_forall _ _) Hid r (proj1 (list_elem_of_In _ _) Hr)) as Hr'.
    unfold keys_of, has_id in *. destruct (id_ r); [|discriminate].
    injection Hk as -> -> ->. split_and!; reflexivity.
  - intros (r & Hr & <- & Hi & <-). exists r. split; [|exact Hr].
    unfold keys_of. by rewrite Hi.
Qed.

(** What [build_index] holds for each url: nothing iff no row has that
    url, otherwise the id and fetch time of a row with that url whose
    [(fetch_time, id)] is the greatest among those rows. *)
Lemma build_index_spec (ds : list record) (m : index) :
  build_index ds = POk m ->
  forall u, (m !! u = None <-> Forall (fun r => url r <> u) ds) /\
   forall i t, m !! u = Some (i, t) ->
     (exists r, r ∈ ds /\ url r = u /\ id_ r = Some i /\ fetch_time r = t) /\
     (forall r, r ∈ ds -> url r = u ->
        exists i', id_ r = Some i' /\ lex_le (fetch_time r, i') (t, i)).
Proof.
  intros H u. apply build_index_ok in H as [Hid ->]. split.
  - rewrite foldl_index_add_none, lookup_empty.
    rewrite map_fmap, Forall_fmap. unfold compose, keys_of. simpl. tauto.
  - intros i t H. destruct (foldl_index_add_some _ _ _ _ _ H) as (Horig & Hks & _).
    split.
    + destruct Horig as [Horig|Hin]; [by rewrite lookup_empty in Horig|].
      by apply keys_of_elem.
    + intros r Hr Hu.
      pose proof (proj1 (forallb_forall _ _) Hid r (proj1 (list_elem_of_In _ _) Hr)) as Hid'.
      unfold has_id in Hid'. destruct (id_ r) as [i'|] eqn:Hi; [|discriminate].
      exists i'. split; [reflexivity|]. apply Hks.
      apply keys_of_elem; [exact Hid|]. by exists r.
Qed.

Lemma elem_of_zip_set_id (ds : list record) (r : record) :
  r ∈ zip_with set_id ds (seq 0 (length ds)) <->
  exists j r0, ds !! j = Some r0 /\ r = set_id r0 j.
Proof.
  rewrite list_elem_of_lookup. split.
  - intros (j & Hj). rewrite lookup_zip_with in Hj.
    destruct (ds !! j) as [r0|] eqn:E; simpl in Hj; [|discriminate].
    rewrite lookup_seq_lt in Hj by (by apply lookup_lt_Some in E).
    simpl in Hj. injection Hj as <-. by exists j, r0.
  - intros (j & r0 & Hj & ->). exists j.
    apply (lookup_zip_set_id ds 0 j r0) in Hj. exact Hj.
Qed.

Lemma forallb_false_exists {A} (f : A -> bool) (l : list A) :
  forallb f l = false -> exists x, x ∈ l /\ f x = false.
Proof.
  induction l as [|x l IH]; simpl; [discriminate|].
  destruct (f x) eqn:Ex; simpl; intros H.
  - destruct (IH H) as (y & Hy & Hf). exists y. split; [by right | exact Hf].
  - exists x. split; [by left | exact Ex].
Qed.

Lemma Forall2_map_r {A B} (P : A -> B -> Prop) (f : A -> B) (l : list A) :
  Forall (fun x => P x (f x)) l -> Forall2 P l (map f l).
Proof. induction 1; simpl; constructor; auto. Qed.

Lemma Forall_url_zip_set_id (u : string) (ds : list record) (start : nat) :
  Forall (fun r => url r <> u) (zip_with set_id ds (seq start (length ds))) <->
  Forall (fun r => url r <> u) ds.
Proof.
  revert start. induction ds as [|r ds IH]; intros start; simpl; [tauto|].
  rewrite !Forall_cons, IH. reflexivity.
Qed.

End FinaliseMoreFacts.

(* ------------------------------------------------------------------ *)
(** *** Facts about the dashboard *)

Section VisualizationFacts.
Import Visualization.

Lemma lookup_read_col (fr : frame) (t : signal) (i : nat) :
  read_col fr t !! i = (fun r => cells r t) <$> (rows fr !! i).
Proof. unfold read_col. rewrite map_fmap. apply list_lookup_fmap. Qed.

(** Two DataFrames that agree on the column list, on the texts and on
    every statistics column except [s]. *)
Definition agree_except (s : signal) (fr fr' : frame) : Prop :=
  columns fr' = columns fr /\
  map text (rows fr') = map text (rows fr) /\
  forall t, t <> s -> read_col fr' t = read_col fr t.

Lemma agree_except_refl (s : signal) (fr : frame) : agree_except s fr fr.
Proof. repeat split; auto. Qed.

Lemma agree_except_trans (s : signal) (fr1 fr2 fr3 : frame) :
  agree_except s fr1 fr2 -> agree_except s fr2 fr3 -> agree_except s fr1 fr3.
Proof.
  intros (Hc1 & Ht1 & Hr1) (Hc2 & Ht2 & Hr2).
  split; [congruence|]. split; [congruence|]. intros t Ht. by rewrite Hr2, Hr1.
Qed.

Lemma map_alter_id {A B} (g : A -> B) (f : A -> A) (i : nat) (l : list A) :
  (forall x, g (f x) = g x) -> map g (alter f i l) = map g l.
Proof.
  intros Hg. revert i. induction l as [|x l IH]; intros [|i]; simpl; try reflexivity.
  - by rewrite Hg.
  - f_equal. apply IH.
Qed.

Lemma map_imap_id {A B} (g : A -> B) (l : list A) :
  forall (F : nat -> A -> A), (forall i x, g (F i x) = g x) -> map g (imap F l) = map g l.
Proof.
  induction l as [|x l IH]; intros F HF; simpl; [reflexivity|].
  rewrite HF. f_equal. apply IH. intros i y. apply HF.
Qed.

Lemma upd_cells_ne (f : signal -> cell) (s t : signal) (c : cell) :
  t <> s -> upd_cells f s c t = f t.
Proof. intros Hts. unfold upd_cells. by rewrite decide_False. Qed.

Lemma set_cell_agree (s : signal) (i : nat) (c : cell) (fr : frame) :
  agree_except s fr (set_cell s i c fr).
Proof.
  split; [reflexivity|]. split.
  - apply map_alter_id. reflexivity.
  - intros t Ht. unfold read_col. simpl. apply map_alter_id.
    intros r. simpl. by apply upd_cells_ne.
Qed.

Lemma set_column_agree (s : signal) (cs : list cell) (fr : frame) :
  agree_except s fr (set_column s cs fr).
Proof.
  split; [reflexivity|]. split.
  - apply map_imap_id. intros i r. by destruct (cs !! i).
  - intros t Ht. unfold read_col. simpl. apply map_imap_id.
    intros i r. destruct (cs !! i); simpl; [|reflexivity]. by apply upd_cells_ne.
Qed.

Lemma docs_frame_modify (f : frame -> frame) (st0 : state) :
  f empty_frame = empty_frame -> docs_frame (modify_docs f st0) = f (docs_frame st0).
Proof.
  intros Hf. unfold docs_frame, frame_at, modify_docs. simpl.
  destruct (decide (docs st0 < length (heap st0))%nat) as [Hlt|Hge].
  - rewrite list_lookup_insert_eq by done.
    destruct (lookup_lt_is_Some_2 (heap st0) (docs st0) Hlt) as [fr Hfr].
    unfold docs_frame, frame_at. by rewrite Hfr.
  - rewrite list_insert_ge by lia. unfold docs_frame, frame_at.
    rewrite (lookup_ge_None_2 (heap st0) (docs st0)) by lia. simpl. by rewrite Hf.
Qed.

Lemma frame_at_modify_ne (f : frame -> frame) (st0 : state) (j : nat) :
  j <> docs st0 -> frame_at (modify_docs f st0) j = frame_at st0 j.
Proof. intros Hj. unfold frame_at, modify_docs. simpl. by rewrite list_lookup_insert_ne. Qed.

Lemma docs_frame_set_cell (s : signal) (i : nat) (c : cell) (st0 : state) :
  docs_frame (modify_docs (set_cell s i c) st0) = set_cell s i c (docs_frame st0).
Proof. by apply docs_frame_modify. Qed.

Lemma docs_frame_set_column (s : signal) (cs : list cell) (st0 : state) :
  docs_frame (modify_docs (set_column s cs) st0) = set_column s cs (docs_frame st0).
Proof. by apply docs_frame_modify. Qed.

Lemma iloc_loop_agree (s : signal) (g : row -> pyres cell) (is : list nat) :
  forall st0 st1, iloc_loop s g is st0 = POk st1 ->
  agree_except s (docs_frame st0) (docs_frame st1) /\ docs st1 = docs st0 /\
  (forall j, j <> docs st0 -> frame_at st1 j = frame_at st0 j).
Proof.
  induction is as [|i is IH]; intros st0 st1 Hrun; simpl in Hrun.
  - injection Hrun as <-. split; [apply agree_except_refl | split; auto].
  - destruct (rows (docs_frame st0) !! i) as [r|]; [|discriminate].
    destruct (g r) as [c|e]; simpl in Hrun; [|discriminate].
    destruct (IH _ _ Hrun) as (Hag & Hd & Hfr).
    rewrite docs_frame_set_cell in Hag. simpl in Hd.
    split; [eapply agree_except_trans; [apply set_cell_agree | exact Hag]|].
    split; [exact Hd|].
    intros j Hj. rewrite Hfr by (simpl; exact Hj). by apply frame_at_modify_ne.
Qed.

Lemma reset_column_agree (s : signal) (st0 : state) :
  agree_except s (docs_frame st0) (docs_frame (reset_column s st0)) /\
  docs (reset_column s st0) = docs st0 /\
  (forall j, j <> docs st0 -> frame_at (reset_column s st0) j = frame_at st0 j).
Proof.
  unfold reset_column. rewrite docs_frame_set_column.
  split; [apply set_column_agree|]. split; [reflexivity|].
  intros j Hj. by apply frame_at_modify_ne.
Qed.

Lemma column_loop_agree (s : signal) (g : row -> pyres cell) (st0 st1 : state) :
  column_loop s g st0 = POk st1 ->
  agree_except s (docs_frame st0) (docs_frame st1) /\ docs st1 = docs st0 /\
  (forall j, j <> docs st0 -> frame_at st1 j = frame_at st0 j).
Proof. apply iloc_loop_agree. Qed.

Lemma lexicon_swap_agree (s : signal) (h : string -> Q) (st0 st1 : state) :
  lexicon_swap s h st0 = POk st1 ->
  agree_except s (docs_frame st0) (docs_frame st1) /\ docs st1 = docs st0 /\
  (forall j, j <> docs st0 -> frame_at st1 j = frame_at st0 j).
Proof.
  unfold lexicon_swap. intros Hrun.
  destruct (column_loop_agree _ _ _ _ Hrun) as (Ha2 & Hd2 & Hf2).
  destruct (reset_column_agree s st0) as (Ha1 & Hd1 & Hf1).
  split; [eapply agree_except_trans; eauto|]. split; [congruence|].
  intros j Hj. rewrite Hf2 by congruence. by apply Hf1.
Qed.

Lemma get_cond_agree (s : signal) (fr fr' : frame) (k : key) :
  agree_except s fr fr' -> key_name k <> s -> get_cond fr' k = get_cond fr k.
Proof. intros (_ & _ & Hr) Hk. unfold get_cond. by rewrite Hr. Qed.

Definition rule_cond_ok (fr : frame) (k : key) (c : list bool) : Prop :=
  get_cond fr k = POk c.

Definition rule_caption_ok (fr : frame) (k : key) (p : Q) : Prop :=
  exists c, get_cond fr k = POk c /\ p = discarded_pct c.

(** What a block of [set_sliders] for signal [s] does: it changes only
    column [s] of [self.docs] and appends keys for [s], together with
    their conditions and figures, evaluated on the resulting DataFrame. *)
Definition block_spec (s : signal) (b : acc -> pyres acc) : Prop :=
  forall a a', b a = POk a' ->
  agree_except s (docs_frame (st a)) (docs_frame (st a')) /\
  exists nk nc np,
    keys a' = keys a ++ nk /\
    concat (map snd (conds a')) = concat (map snd (conds a)) ++ nc /\
    captions a' = captions a ++ np /\
    Forall (fun k => key_name k = s) nk /\
    Forall2 (rule_cond_ok (docs_frame (st a'))) nk nc /\
    Forall2 (rule_caption_ok (docs_frame (st a'))) nk np.

Lemma add_rule_spec (k : key) (a : acc) (p : list bool * acc) :
  add_rule k a = POk p ->
  get_cond (docs_frame (st a)) k = POk p.1 /\
  p.2 = mk_acc (st a) (keys a ++ [k]) (conds a) (captions a ++ [discarded_pct p.1]).
Proof.
  unfold add_rule. destruct (get_cond (docs_frame (st a)) k) as [c|e]; simpl;
    intros H; [|discriminate]. injection H as <-. split; reflexivity.
Qed.

Lemma concat_map_snd_snoc (cs : list (signal * list (list bool))) (s : signal)
    (l : list (list bool)) :
  concat (map snd (cs ++ [(s, l)])) = concat (map snd cs) ++ l.
Proof. rewrite map_app, concat_app. simpl. by rewrite app_nil_r. Qed.

(** A block that evaluates one rule on the DataFrame it receives. *)
Lemma single_rule_spec (s : signal) (k : key) (a p2 : acc) (c : list bool) :
  key_name k = s ->
  get_cond (docs_frame (st a)) k = POk c ->
  p2 = mk_acc (st a) (keys a ++ [k]) (conds a) (captions a ++ [discarded_pct c]) ->
  exists nk nc np,
    keys (set_conds p2 s [c]) = keys a ++ nk /\
    concat (map snd (conds (set_conds p2 s [c]))) = concat (map snd (conds a)) ++ nc /\
    captions (set_conds p2 s [c]) = captions a ++ np /\
    Forall (fun k => key_name k = s) nk /\
    Forall2 (rule_cond_ok (docs_frame (st (set_conds p2 s [c])))) nk nc /\
    Forall2 (rule_caption_ok (docs_frame (st (set_conds p2 s [c])))) nk np.
Proof.
  intros Hk Hc ->. exists [k], [c], [discarded_pct c]. simpl.
  rewrite concat_map_snd_snoc. simpl.
  repeat split; try reflexivity; repeat constructor; try done.
  exists c. split; [exact Hc | reflexivity].
Qed.

Lemma simple_block_spec (s : signal) (cutoff : Q) (max_cutoff : bool) :
  block_spec s (simple_block s cutoff max_cutoff).
Proof.
  intros a a' H. unfold simple_block in H.
  destruct (add_rule (mk_key s cutoff max_cutoff None) a) as [p|e] eqn:E;
    simpl in H; [|discriminate].
  injection H as <-. apply add_rule_spec in E as [Hc Hp].
  split; [rewrite Hp; apply agree_except_refl|].
  apply (single_rule_spec s (mk_key s cutoff max_cutoff None) a p.2 p.1);
    [reflexivity | exact Hc | exact Hp].
Qed.

Lemma number_words_block_spec (u : ui) : block_spec NumberWords (number_words_block u).
Proof.
  intros a a' H. unfold number_words_block in H.
  destruct (add_rule _ a) as [p1|e] eqn:E1; simpl in H; [|discriminate].
  destruct (add_rule _ p1.2) as [p2|e] eqn:E2; simpl in H; [|discriminate].
  injection H as <-.
  apply add_rule_spec in E1 as [Hc1 Hp1]. apply add_rule_spec in E2 as [Hc2 Hp2].
  rewrite Hp1 in Hc2, Hp2. rewrite Hp2. simpl.
  split; [apply agree_except_refl|].
  eexists [_; _], [p1.1; p2.1], [_; _].
  rewrite concat_map_snd_snoc, <- !app_assoc. simpl.
  repeat split; try reflexivity; repeat constructor; try done.
  - exists p1.1. split; [exact Hc1 | reflexivity].
  - exists p2.1. split; [exact Hc2 | reflexivity].
Qed.

Lemma repetitions_block_spec (u : ui) : block_spec RepetitionsRatio (repetitions_block u).
Proof.
  intros a a' H. unfold repetitions_block in H.
  destruct (column_loop _ _ _) as [st2|e] eqn:E2; simpl in H; [|discriminate].
  destruct (add_rule _ (with_state a st2)) as [p|e] eqn:E; simpl in H; [|discriminate].
  injection H as <-.
  apply add_rule_spec in E as [Hc Hp]. simpl in Hc, Hp.
  destruct (column_loop_agree _ _ _ _ E2) as (Ha2 & _ & _).
  destruct (reset_column_agree RepetitionsRatio (st a)) as (Ha1 & _ & _).
  split.
  - rewrite Hp. simpl. eapply agree_except_trans; eauto.
  - apply (single_rule_spec RepetitionsRatio
             (mk_key RepetitionsRatio (cutoff_repetitions_ratio u) true
                (Some (repetitions_length u))) (with_state a st2) p.2 p.1);
      [reflexivity | exact Hc | exact Hp].
Qed.

Lemma lexicon_block_spec (s : signal) (file : option string) (h : string -> Q)
    (cutoff : Q) (max_cutoff : bool) :
  block_spec s (fun a =>
    let! st1 := match file with
                | Some _ => lexicon_swap s h (st a)
                | None => POk (st a)
                end in
    simple_block s cutoff max_cutoff (with_state a st1)).
Proof.
  intros a a' H.
  destruct (match file with Some _ => lexicon_swap s h (st a) | None => POk (st a) end)
    as [st1|e] eqn:E1; simpl in H; [|discriminate].
  destruct (simple_block_spec s cutoff max_cutoff _ _ H) as [Hag Hrest].
  split; [|exact Hrest].
  eapply agree_except_trans; [|exact Hag]. simpl.
  destruct file; [|injection E1 as <-; apply agree_except_refl].
  apply (lexicon_swap_agree _ _ _ _ E1).
Qed.

Lemma stopwords_block_spec (cfg : config) (u : ui) :
  block_spec StopwordsRatio (stopwords_block cfg u).
Proof.
  intros a a' H. unfold stopwords_block in H.
  eapply (lexicon_block_spec StopwordsRatio (stopwords_file u)
            (match stopwords_file u with
             | Some content => compute_stopwords_ratio (flt cfg) (lexicon_of_file content)
             | None => fun _ => 0%Q end)); [].
  destruct (stopwords_file u); exact H.
Qed.

Lemma flagged_words_block_spec (cfg : config) (u : ui) :
  block_spec FlaggedWordsRatio (flagged_words_block cfg u).
Proof.
  intros a a' H. unfold flagged_words_block in H.
  eapply (lexicon_block_spec FlaggedWordsRatio (flagged_words_file u)
            (match flagged_words_file u with
             | Some content => compute_flagged_words_ratio (flt cfg) (lexicon_of_file content)
             | None => fun _ => 0%Q end)); [].
  destruct (flagged_words_file u); exact H.
Qed.

Lemma when_present_spec (s : signal) (b : bool) (f : acc -> pyres acc) :
  block_spec s f -> block_spec s (when_present b f).
Proof.
  intros Hf a a' H. destruct b; simpl in H; [by apply Hf|].
  injection H as <-. split; [apply agree_except_refl|].
  exists [], [], []. rewrite !app_nil_r. repeat split; constructor.
Qed.

(** The invariant of [set_sliders] after the blocks of the signals [D]:
    every key so far belongs to one of them, and its condition and figure
    are those of [get_cond] on the current DataFrame. *)
Definition sliders_inv (D : list signal) (a : acc) : Prop :=
  Forall (fun k => key_name k ∈ D) (keys a) /\
  Forall2 (rule_cond_ok (docs_frame (st a))) (keys a) (concat (map snd (conds a))) /\
  Forall2 (rule_caption_ok (docs_frame (st a))) (keys a) (captions a).

Lemma Forall2_weaken_with {A B} (P : A -> Prop) (R R' : A -> B -> Prop)
    (xs : list A) (ys : list B) :
  Forall P xs -> Forall2 R xs ys -> (forall x y, P x -> R x y -> R' x y) ->
  Forall2 R' xs ys.
Proof.
  intros HP HR Himp. induction HR as [|x y xs ys Hxy _ IH]; constructor.
  - inversion HP; subst. by apply Himp.
  - inversion HP; subst. by apply IH.
Qed.

Lemma sliders_inv_step (D : list signal) (s : signal) (b : acc -> pyres acc) (a a' : acc) :
  block_spec s b -> s ∉ D -> sliders_inv D a -> b a = POk a' -> sliders_inv (D ++ [s]) a'.
Proof.
  intros Hb Hs (HD & Hc & Hp) Hrun.
  destruct (Hb a a' Hrun) as (Hag & nk & nc & np & Hk & Hcs & Hps & Hnk & Hnc & Hnp).
  unfold sliders_inv. rewrite Hk, Hcs, Hps. split; [|split].
  - apply Forall_app. split.
    + eapply Forall_impl; [exact HD|]. intros k Hk'. apply elem_of_app. by left.
    + eapply Forall_impl; [exact Hnk|]. intros k ->. apply elem_of_app. right.
      by apply list_elem_of_singleton.
  - apply Forall2_app; [|exact Hnc].
    eapply Forall2_weaken_with; [exact HD | exact Hc|].
    intros k c Hk' Hkc. unfold rule_cond_ok in *.
    rewrite (get_cond_agree s _ _ k Hag); [exact Hkc|]. intros Heq. apply Hs. by rewrite <- Heq.
  - apply Forall2_app; [|exact Hnp].
    eapply Forall2_weaken_with; [exact HD | exact Hp|].
    intros k p Hk' (c & Hkc & ->). exists c. split; [|reflexivity].
    rewrite (get_cond_agree s _ _ k Hag); [exact Hkc|]. intros Heq. apply Hs. by rewrite <- Heq.
Qed.

Ltac not_in_signals :=
  let Hin := fresh "Hin" in
  intros Hin; apply list_elem_of_In in Hin; simpl in Hin;
  repeat (destruct Hin as [Hin|Hin]; [discriminate|]); exact Hin.

Lemma set_sliders_inv (cfg : config) (u : ui) (st0 : state) (a : acc) :
  set_sliders cfg u st0 = POk a ->
  sliders_inv [NumberWords; RepetitionsRatio; SpecialCharactersRatio; StopwordsRatio;
               FlaggedWordsRatio; LangIdScore; PerplexityScore] a.
Proof.
  unfold set_sliders. intros H.
  assert (H0 : sliders_inv [] (mk_acc st0 [] [] [])) by (repeat split; constructor).
  destruct (when_present _ (number_words_block u) _) as [a1|e] eqn:E1; simpl in H; [|discriminate].
  pose proof (sliders_inv_step [] _ _ _ _
    (when_present_spec _ _ _ (number_words_block_spec u)) ltac:(not_in_signals) H0 E1) as H1.
  destruct (when_present _ (repetitions_block u) _) as [a2|e] eqn:E2; simpl in H; [|discriminate].
  pose proof (sliders_inv_step [NumberWords] _ _ _ _
    (when_present_spec _ _ _ (repetitions_block_spec u)) ltac:(not_in_signals) H1 E2) as H2.
  destruct (when_present _ (simple_block SpecialCharactersRatio _ _) _) as [a3|e] eqn:E3;
    simpl in H; [|discriminate].
  pose proof (sliders_inv_step [NumberWords; RepetitionsRatio] _ _ _ _
    (when_present_spec _ _ _ (simple_block_spec SpecialCharactersRatio _ _)) ltac:(not_in_signals) H2 E3) as H3.
  destruct (when_present _ (stopwords_block cfg u) _) as [a4|e] eqn:E4; simpl in H; [|discriminate].
  pose proof (sliders_inv_step [NumberWords; RepetitionsRatio; SpecialCharactersRatio] _ _ _ _
    (when_present_spec _ _ _ (stopwords_block_spec cfg u)) ltac:(not_in_signals) H3 E4) as H4.
  destruct (when_present _ (flagged_words_block cfg u) _) as [a5|e] eqn:E5; simpl in H; [|discriminate].
  pose proof (sliders_inv_step [NumberWords; RepetitionsRatio; SpecialCharactersRatio; StopwordsRatio] _ _ _ _
    (when_present_spec _ _ _ (flagged_words_block_spec cfg u)) ltac:(not_in_signals) H4 E5) as H5.
  destruct (when_present _ (simple_block LangIdScore _ _) _) as [a6|e] eqn:E6;
    simpl in H; [|discriminate].
  pose proof (sliders_inv_step [NumberWords; RepetitionsRatio; SpecialCharactersRatio; StopwordsRatio; FlaggedWordsRatio] _ _ _ _
    (when_present_spec _ _ _ (simple_block_spec LangIdScore _ _)) ltac:(not_in_signals) H5 E6) as H6.
  exact (sliders_inv_step [NumberWords; RepetitionsRatio; SpecialCharactersRatio; StopwordsRatio; FlaggedWordsRatio; LangIdScore] _ _ _ _
    (when_present_spec _ _ _ (simple_block_spec PerplexityScore _ _)) ltac:(not_in_signals) H6 H).
Qed.

(** [get_cond] succeeds only on numeric cells, and then gives, per row,
    whether the row passes the rule in isolation. *)
Lemma get_cond_spec (fr : frame) (k : key) (c : list bool) :
  get_cond fr k = POk c ->
  Forall (fun r => exists v, cells r (key_name k) = CNum v) (rows fr) /\
  c = map (fun r => negb (rule_fails_b k r)) (rows fr).
Proof.
  unfold get_cond, read_col. generalize (rows fr) as rs. intros rs.
  revert c. induction rs as [|r rs IH]; intros c H; simpl in H.
  - injection H as <-. split; constructor.
  - unfold rule_fails_b at 1.
    destruct (cells r (key_name k)) as [v|d] eqn:Hv; simpl in H; [|discriminate].
    destruct (mapM _ (map _ rs)) as [cs|e] eqn:Ers; simpl in H; [|discriminate].
    injection H as <-. destruct (IH cs eq_refl) as [HF ->].
    split; [constructor; [eauto | exact HF]|]. simpl. rewrite Hv, negb_involutive. reflexivity.
Qed.

Lemma rule_passes_iff (k : key) (r : row) :
  (exists v, cells r (key_name k) = CNum v) ->
  (negb (rule_fails_b k r) = true <-> rule_passes k r).
Proof.
  intros [v Hv]. unfold rule_fails_b, rule_passes. rewrite Hv, negb_involutive.
  split.
  - intros Hb. exists v. split; [reflexivity|].
    destruct (key_max k); by apply Qle_bool_iff.
  - intros (v' & Hv' & Hle). injection Hv' as <-.
    destruct (key_max k); by apply Qle_bool_iff.
Qed.

Lemma lookup_get_cond (fr : frame) (k : key) (c : list bool) (i : nat) (r : row) :
  get_cond fr k = POk c -> rows fr !! i = Some r ->
  c !! i = Some (negb (rule_fails_b k r)) /\ exists v, cells r (key_name k) = CNum v.
Proof.
  intros Hc Hr. destruct (get_cond_spec _ _ _ Hc) as [Hnum ->]. split.
  - rewrite map_fmap, list_lookup_fmap, Hr. reflexivity.
  - exact (Forall_lookup_1 _ _ _ _ Hnum Hr).
Qed.

(** Document [i] passes every condition of [cs] iff it passes every rule. *)
Lemma all_conds_forall (fr : frame) (i : nat) (r : row) (ks : list key)
    (cs : list (list bool)) :
  rows fr !! i = Some r -> Forall2 (rule_cond_ok fr) ks cs ->
  (forallb (fun c => default false (c !! i)) cs = true <-> Forall (fun k => rule_passes k r) ks).
Proof.
  intros Hr HF. induction HF as [|k c ks cs Hkc _ IH]; simpl.
  - split; [constructor | reflexivity].
  - destruct (lookup_get_cond _ _ _ _ _ Hkc Hr) as [Hci Hnum]. rewrite Hci. simpl.
    rewrite andb_true_iff, IH, Forall_cons, (rule_passes_iff k r Hnum). reflexivity.
Qed.

Lemma filter_negb_count {A} (f : A -> bool) (l : list A) :
  (length (filter (fun b => b = true) (map (fun x => negb (f x)) l))
   + length (filter (fun x => f x = true) l))%nat = length l.
Proof.
  induction l as [|x l IH]; simpl; [reflexivity|].
  rewrite !filter_cons. destruct (f x); simpl; repeat case_decide; simpl; try congruence; lia.
Qed.

(** The figure displayed for a condition is the share of documents that
    fail the rule. *)
Lemma discarded_pct_share (fr : frame) (k : key) (c : list bool) :
  get_cond fr k = POk c -> (discarded_pct c == discard_share fr k)%Q.
Proof.
  intros Hc. destruct (get_cond_spec _ _ _ Hc) as [_ ->].
  unfold discarded_pct, discard_share. rewrite length_map.
  pose proof (filter_negb_count (rule_fails_b k) (rows fr)) as Hn.
  rewrite <- Hn, Nat2Z.inj_add, inject_Z_plus.
  match goal with
  | |- ((?T + ?F - ?T) / _ * _ == _)%Q =>
      assert (Hs : (T + F - T == F)%Q) by ring; rewrite Hs
  end.
  reflexivity.
Qed.

(** [iloc_loop] with a computation that reads the text only. *)
Lemma iloc_loop_pure (s : signal) (h : string -> Q) (is : list nat) :
  forall st0, Forall (fun i => i < length (rows (docs_frame st0)))%nat is ->
  exists st1, iloc_loop s (fun r => POk (CNum (h (text r)))) is st0 = POk st1 /\
    read_col (docs_frame st1) s =
      imap (fun j r => if bool_decide (j ∈ is) then CNum (h (text r)) else cells r s)
        (rows (docs_frame st0)).
Proof.
  induction is as [|i is IH]; intros st0 Hlt.
  - exists st0. split; [reflexivity|].
    apply list_eq. intros j. rewrite lookup_read_col, list_lookup_imap.
    destruct (rows (docs_frame st0) !! j); simpl; [|reflexivity].
    reflexivity.
  - inversion Hlt as [|? ? Hi Hlt']; subst.
    destruct (lookup_lt_is_Some_2 _ _ Hi) as [r Hr]. simpl. rewrite Hr. simpl.
    pose proof (docs_frame_set_cell s i (CNum (h (text r))) st0) as Hd.
    set (st1 := modify_docs _ st0) in *.
    assert (Hlen : length (rows (docs_frame st1)) = length (rows (docs_frame st0)))
      by (rewrite Hd; simpl; apply length_alter).
    destruct (IH st1) as (st2 & Hrun & Hcol); [by rewrite Hlen|].
    exists st2. split; [exact Hrun|]. rewrite Hcol, Hd. simpl.
    apply list_eq. intros j. rewrite !list_lookup_imap.
    destruct (decide (j = i)) as [->|Hji].
    + rewrite list_lookup_alter, Hr. simpl.
      repeat rewrite decide_True by reflexivity. simpl.
      rewrite (bool_decide_true (i ∈ i :: is)) by constructor.
      destruct (bool_decide (i ∈ is)); simpl; [reflexivity|].
      unfold upd_cells. by rewrite decide_True.
    + rewrite list_lookup_alter_ne by congruence.
      destruct (rows (docs_frame st0) !! j); simpl; [|reflexivity].
      assert (Hm : j ∈ i :: is <-> j ∈ is).
      { rewrite elem_of_cons. intuition congruence. }
      by rewrite (bool_decide_ext _ _ Hm).
Qed.

Lemma map_through {A B C} (f : A -> B) (g : B -> C) (l1 l2 : list A) :
  map f l1 = map f l2 -> map (fun x => g (f x)) l1 = map (fun x => g (f x)) l2.
Proof. intros H. by rewrite <- (map_map f g l1), <- (map_map f g l2), H. Qed.

(** A lexicon swap always succeeds and fills column [s] from the texts. *)
Lemma lexicon_swap_pure (s : signal) (h : string -> Q) (st0 : state) :
  exists st1, lexicon_swap s h st0 = POk st1 /\
    read_col (docs_frame st1) s = map (fun r => CNum (h (text r))) (rows (docs_frame st0)).
Proof.
  unfold lexicon_swap, column_loop.
  destruct (reset_column_agree s st0) as ((_ & Htext & _) & _ & _).
  set (st1 := reset_column s st0) in *.
  destruct (iloc_loop_pure s h (seq 0 (length (rows (docs_frame st1)))) st1)
    as (st2 & Hrun & Hcol).
  { apply Forall_seq. lia. }
  exists st2. split; [exact Hrun|]. rewrite Hcol.
  transitivity (map (fun r => CNum (h (text r))) (rows (docs_frame st1))).
  - apply list_eq. intros j. rewrite list_lookup_imap, map_fmap, list_lookup_fmap.
    destruct (rows (docs_frame st1) !! j) eqn:Ej; simpl; [|reflexivity].
    rewrite bool_decide_true; [reflexivity|].
    apply lookup_lt_Some in Ej. apply elem_of_seq. lia.
  - by apply (map_through text (fun x => CNum (h x))).
Qed.

End VisualizationFacts.

(* ------------------------------------------------------------------ *)
(** ** Further facts about the dashboard *)

Section VisualizationMoreFacts.
Import Visualization VisualizationDisplay.



(** [iloc_loop] leaves the rows it does not visit as they are. *)
Lemma iloc_loop_untouched (s : signal) (g : row -> pyres cell) (is : list nat) :
  forall st0 st1 j, iloc_loop s g is st0 = POk st1 -> j ∉ is ->
  rows (docs_frame st1) !! j = rows (docs_frame st0) !! j.
Proof.
  induction is as [|i is IH]; intros st0 st1 j Hrun Hj; simpl in Hrun.
  - by injection Hrun as <-.
  - destruct (rows (docs_frame st0) !! i) as [r|]; [|discriminate].
    destruct (g r) as [c|e]; simpl in Hrun; [|discriminate].
    rewrite (IH _ _ j Hrun) by (intros Hin; apply Hj; apply elem_of_cons; by right).
    rewrite docs_frame_set_cell. simpl. apply list_lookup_alter_ne.
    intros ->. apply Hj. apply elem_of_cons. by left.
Qed.

(** Over distinct indices, [iloc_loop] writes [g] of the original row
    into column [s] of each row it visits. *)
Lemma iloc_loop_sets (s : signal) (g : row -> pyres cell) (is : list nat) :
  forall st0 st1, iloc_loop s g is st0 = POk st1 -> NoDup is ->
  forall j r, j ∈ is -> rows (docs_frame st0) !! j = Some r ->
  exists c r', g r = POk c /\ rows (docs_frame st1) !! j = Some r' /\ cells r' s = c.
Proof.
  induction is as [|i is IH]; intros st0 st1 Hrun Hnd j r Hj Hr;
    [by apply elem_of_nil in Hj|].
  simpl in Hrun. apply NoDup_cons in Hnd as [Hi Hnd].
  destruct (rows (docs_frame st0) !! i) as [ri|] eqn:Eri; [|discriminate].
  destruct (g ri) as [ci|e] eqn:Eg; simpl in Hrun; [|discriminate].
  destruct (decide (j = i)) as [->|Hji].
  - rewrite Eri in Hr. injection Hr as <-.
    rewrite (iloc_loop_untouched _ _ _ _ _ i Hrun Hi), docs_frame_set_cell. simpl.
    rewrite list_lookup_alter, Eri. simpl. rewrite decide_True by reflexivity.
    exists ci, (mk_row (text ri) (upd_cells (cells ri) s ci)).
    split; [exact Eg|]. split; [reflexivity|]. simpl. unfold upd_cells. by rewrite decide_True.
  - apply elem_of_cons in Hj as [Hj|Hj]; [contradiction|].
    apply (IH _ _ Hrun Hnd j r Hj).
    rewrite docs_frame_set_cell. simpl. by rewrite list_lookup_alter_ne by congruence.
Qed.

(** When [self.docs] is the checkpoint, resetting a column from the
    checkpoint keeps every cell of that column. *)
Lemma reset_column_same (s : signal) (st0 : state) (i : nat) (r : row) :
  docs st0 = docs_checkpoint st0 -> rows (docs_frame st0) !! i = Some r ->
  exists r', rows (docs_frame (reset_column s st0)) !! i = Some r' /\ cells r' s = cells r s.
Proof.
  intros Hd Hr. unfold reset_column. rewrite docs_frame_set_column. simpl.
  rewrite list_lookup_imap, Hr. simpl.
  assert (Hf : frame_at st0 (docs_checkpoint st0) = docs_frame st0)
    by (unfold docs_frame; by rewrite Hd).
  rewrite Hf, lookup_read_col, Hr. simpl.
  eexists. split; [reflexivity|]. simpl. unfold upd_cells. by rewrite decide_True.
Qed.

Lemma agree_except_length (s : signal) (fr fr' : frame) :
  agree_except s fr fr' -> length (rows fr') = length (rows fr).
Proof.
  intros (_ & Ht & _). rewrite <- (length_map text (rows fr')), <- (length_map text (rows fr)).
  by rewrite Ht.
Qed.

Lemma discard_if_keeps (l : locals) (b : bool) :
  is_discarded l = true -> is_discarded (discard_if l b) = true.
Proof. intros H. destruct b; simpl; [reflexivity | exact H]. Qed.

Lemma discard_if_fwr (l : locals) (b : bool) :
  flagged_words_ratio (discard_if l b) = flagged_words_ratio l.
Proof. by destruct b. Qed.

Lemma foldM_app {A B} (f : A -> B -> pyres A) (a : A) (l1 l2 : list B) :
  foldM f a (l1 ++ l2) = (let! a' := foldM f a l1 in foldM f a' l2).
Proof.
  revert a. induction l1 as [|b l1 IH]; intros a; simpl; [reflexivity|].
  destruct (f a b); simpl; [apply IH | reflexivity].
Qed.

(** No key of the probe turns a discarded document back. *)
Lemma analyse_key_keeps_discarded (cfg : config) (doc : string) (l l' : locals) (k : key) :
  analyse_key cfg doc l k = POk l' -> is_discarded l = true -> is_discarded l' = true.
Proof.
  intros H Hd. unfold analyse_key in H.
  destruct (key_name k); simpl in H.
  - injection H as <-. by apply discard_if_keeps.
  - destruct (key_len k) as [len|]; simpl in H; [|discriminate].
    destruct (py_int len); simpl in H; [|discriminate].
    injection H as <-. by apply discard_if_keeps.
  - injection H as <-. by apply discard_if_keeps.
  - injection H as <-. by apply discard_if_keeps.
  - injection H as <-. simpl. by rewrite Hd.
  - destruct (compute_lang_id_pred_score (flt cfg) doc) as [p sc].
    destruct (flagged_words_ratio l); [|discriminate].
    injection H as <-. by apply discard_if_keeps.
  - injection H as <-. by apply discard_if_keeps.
Qed.

Lemma foldM_analyse_keeps_discarded (cfg : config) (doc : string) (ks : list key) :
  forall l l', foldM (analyse_key cfg doc) l ks = POk l' ->
  is_discarded l = true -> is_discarded l' = true.
Proof.
  induction ks as [|k ks IH]; intros l l' H Hd; simpl in H.
  - by injection H as <-.
  - destruct (analyse_key cfg doc l k) as [l1|e] eqn:E; simpl in H; [|discriminate].
    apply (IH l1 l' H). exact (analyse_key_keeps_discarded _ _ _ _ _ E Hd).
Qed.

(** Whether, among the keys, a lang-id key comes before any
    flagged-words key. *)
Fixpoint lang_before_flagged (ks : list key) : bool :=
  match ks with
  | [] => false
  | k :: ks' =>
      match key_name k with
      | LangIdScore => true
      | FlaggedWordsRatio => false
      | _ => lang_before_flagged ks'
      end
  end.

(** A repetitions key whose length parses as an integer. *)
Definition rep_len_ok (k : key) : Prop :=
  key_name k = RepetitionsRatio -> exists len n, key_len k = Some len /\ py_int len = POk n.

Lemma analyse_key_step (cfg : config) (doc : string) (l : locals) (k : key) :
  rep_len_ok k ->
  match key_name k with
  | LangIdScore =>
      (flagged_words_ratio l = None -> analyse_key cfg doc l k = PErr UnboundLocalError) /\
      (flagged_words_ratio l <> None ->
         exists l', analyse_key cfg doc l k = POk l' /\ flagged_words_ratio l' = flagged_words_ratio l)
  | FlaggedWordsRatio =>
      exists l' q, analyse_key cfg doc l k = POk l' /\ flagged_words_ratio l' = Some q
  | _ => exists l', analyse_key cfg doc l k = POk l' /\ flagged_words_ratio l' = flagged_words_ratio l
  end.
Proof.
  intros Hk. unfold analyse_key. destruct (key_name k) eqn:Ek; simpl.
  - eexists. split; [reflexivity | apply discard_if_fwr].
  - destruct (Hk Ek) as (len & n & -> & ->). simpl.
    eexists. split; [reflexivity | apply discard_if_fwr].
  - eexists. split; [reflexivity | apply discard_if_fwr].
  - eexists. split; [reflexivity | apply discard_if_fwr].
  - eexists _, _. split; reflexivity.
  - destruct (compute_lang_id_pred_score (flt cfg) doc) as [p sc].
    destruct (flagged_words_ratio l) eqn:Ef; split; intros Hf; try congruence.
    eexists. split; [reflexivity|]. by rewrite discard_if_fwr.
  - eexists. split; [reflexivity | apply discard_if_fwr].
Qed.

Lemma foldM_analyse_outcome (cfg : config) (doc : string) (ks : list key) :
  Forall rep_len_ok ks -> forall l,
  (flagged_words_ratio l <> None -> exists l', foldM (analyse_key cfg doc) l ks = POk l') /\
  (flagged_words_ratio l = None ->
     if lang_before_flagged ks then foldM (analyse_key cfg doc) l ks = PErr UnboundLocalError
     else exists l', foldM (analyse_key cfg doc) l ks = POk l').
Proof.
  induction 1 as [|k ks Hk Hks IH]; intros l.
  - split; intros _; [|simpl]; eexists; reflexivity.
  - pose proof (analyse_key_step cfg doc l k Hk) as Hstep. simpl.
    destruct (key_name k) eqn:Ek;
      try (destruct Hstep as (l1 & E1 & Hf1); rewrite E1; cbn [pbind];
           destruct (IH l1) as [IH1 IH2]; rewrite Hf1 in IH1, IH2;
           split; [exact IH1 | exact IH2]).
    + destruct Hstep as (l1 & q & E1 & Hf1). rewrite E1. cbn [pbind].
      destruct (IH l1) as [IH1 _]. rewrite Hf1 in IH1.
      split; intros _; apply IH1; discriminate.
    + destruct Hstep as [Hnone Hsome]. split.
      * intros Hf. destruct (Hsome Hf) as (l1 & E1 & Hf1). rewrite E1. cbn [pbind].
        apply (proj1 (IH l1)). by rewrite Hf1.
      * intros Hf. rewrite (Hnone Hf). reflexivity.
Qed.

(** [conds[s]] when every key of [conds] is set once. *)
Lemma conds_get_nodup (cs : list (signal * list (list bool))) (s : signal) (l : list (list bool)) :
  NoDup (map fst cs) -> (s, l) ∈ cs -> conds_get cs s = POk l.
Proof.
  induction cs as [|[s' l'] cs IH]; intros Hnd Hin; [by apply elem_of_nil in Hin|].
  simpl in Hnd. apply NoDup_cons in Hnd as [Hs' Hnd]. simpl.
  apply elem_of_cons in Hin as [Heq|Hin].
  - injection Heq as -> ->. by rewrite decide_True.
  - rewrite decide_False; [by apply IH|].
    intros ->. apply Hs'. rewrite map_fmap. apply list_elem_of_fmap. by exists (s', l).
Qed.

Lemma mapM_map_ok {A B C} (f : A -> pyres B) (h : C -> A) (g : C -> B) (l : list C) :
  (forall x, x ∈ l -> f (h x) = POk (g x)) -> mapM f (map h l) = POk (map g l).
Proof.
  induction l as [|x l IH]; intros Hf; simpl; [reflexivity|].
  rewrite (Hf x) by (apply elem_of_cons; by left). simpl.
  rewrite IH; [reflexivity|]. intros y Hy. apply Hf. apply elem_of_cons. by right.
Qed.

Lemma forallb_concat_snd (f : list bool -> bool) (cs : list (signal * list (list bool))) :
  forallb f (concat (map snd cs)) = forallb (fun p => forallb f p.2) cs.
Proof.
  induction cs as [|p cs IH]; simpl; [reflexivity|].
  by rewrite forallb_app, IH.
Qed.

Lemma forallb_false_iff {A} (f : A -> bool) (l : list A) :
  forallb f l = false <-> exists x, x ∈ l /\ f x = false.
Proof.
  split; [apply forallb_false_exists|].
  intros (x & Hx & Hfx). destruct (forallb f l) eqn:E; [|reflexivity].
  rewrite (proj1 (forallb_forall _ _) E x (proj1 (list_elem_of_In _ _) Hx)) in Hfx.
  discriminate.
Qed.

Lemma lookup_np_all_axis0 (l : list (list bool)) (n i : nat) :
  (i < n)%nat -> np_all_axis0 l n !! i = Some (forallb (fun c => default false (c !! i)) l).
Proof.
  intros Hi. unfold np_all_axis0. rewrite map_fmap, list_lookup_fmap, lookup_seq_lt by exact Hi.
  reflexivity.
Qed.

Definition block_conds (s : signal) (b : acc -> pyres acc) : Prop :=
  forall a a', b a = POk a' -> exists l, conds a' = conds a ++ [(s, l)].

Lemma simple_block_conds (s : signal) (cutoff : Q) (max_cutoff : bool) :
  block_conds s (simple_block s cutoff max_cutoff).
Proof.
  intros a a' H. unfold simple_block in H.
  destruct (add_rule _ a) as [p|e] eqn:E; simpl in H; [|discriminate].
  injection H as <-. apply add_rule_spec in E as [_ Hp]. rewrite Hp.
  eexists. reflexivity.
Qed.

Lemma number_words_block_conds (u : ui) : block_conds NumberWords (number_words_block u).
Proof.
  intros a a' H. unfold number_words_block in H.
  destruct (add_rule _ a) as [p1|e] eqn:E1; simpl in H; [|discriminate].
  destruct (add_rule _ p1.2) as [p2|e] eqn:E2; simpl in H; [|discriminate].
  injection H as <-. apply add_rule_spec in E1 as [_ Hp1]. apply add_rule_spec in E2 as [_ Hp2].
  rewrite Hp2, Hp1. eexists. reflexivity.
Qed.

Lemma repetitions_block_conds (u : ui) : block_conds RepetitionsRatio (repetitions_block u).
Proof.
  intros a a' H. unfold repetitions_block in H.
  destruct (column_loop _ _ _) as [st2|e]; simpl in H; [|discriminate].
  destruct (add_rule _ _) as [p|e] eqn:E; simpl in H; [|discriminate].
  injection H as <-. apply add_rule_spec in E as [_ Hp]. rewrite Hp.
  eexists. reflexivity.
Qed.

Lemma stopwords_block_conds (cfg : config) (u : ui) :
  block_conds StopwordsRatio (stopwords_block cfg u).
Proof.
  intros a a' H. unfold stopwords_block in H.
  destruct (match stopwords_file u with Some _ => _ | None => _ end) as [st1|e];
    simpl in H; [|discriminate].
  destruct (simple_block_conds _ _ _ _ _ H) as [l Hl]. exists l. exact Hl.
Qed.

Lemma flagged_words_block_conds (cfg : config) (u : ui) :
  block_conds FlaggedWordsRatio (flagged_words_block cfg u).
Proof.
  intros a a' H. unfold flagged_words_block in H.
  destruct (match flagged_words_file u with Some _ => _ | None => _ end) as [st1|e];
    simpl in H; [|discriminate].
  destruct (simple_block_conds _ _ _ _ _ H) as [l Hl]. exists l. exact Hl.
Qed.

Lemma when_present_step (s : signal) (b : bool) (f : acc -> pyres acc) (a a' : acc) :
  block_spec s f -> block_conds s f -> when_present b f a = POk a' ->
  columns (docs_frame (st a')) = columns (docs_frame (st a)) /\
  map fst (conds a') = map fst (conds a) ++ (if b then [s] else []).
Proof.
  intros Hs Hc H. destruct b; simpl in H.
  - destruct (Hs _ _ H) as [(Hcol & _) _]. destruct (Hc _ _ H) as [l ->].
    split; [exact Hcol|]. by rewrite map_app.
  - injection H as <-. split; [reflexivity|]. by rewrite app_nil_r.
Qed.

Lemma filter_signal_order (C : list signal) :
  filter (fun s => s ∈ C) signal_order =
    (if bool_decide (NumberWords ∈ C) then [NumberWords] else []) ++
    (if bool_decide (RepetitionsRatio ∈ C) then [RepetitionsRatio] else []) ++
    (if bool_decide (SpecialCharactersRatio ∈ C) then [SpecialCharactersRatio] else []) ++
    (if bool_decide (StopwordsRatio ∈ C) then [StopwordsRatio] else []) ++
    (if bool_decide (FlaggedWordsRatio ∈ C) then [FlaggedWordsRatio] else []) ++
    (if bool_decide (LangIdScore ∈ C) then [LangIdScore] else []) ++
    (if bool_decide (PerplexityScore ∈ C) then [PerplexityScore] else []).
Proof.
  unfold signal_order. rewrite !filter_cons, filter_nil.
  repeat case_bool_decide;
    repeat first [rewrite decide_True by assumption | rewrite decide_False by assumption];
    reflexivity.
Qed.

(** [set_sliders] keeps the column list and fills [conds] with one entry
    per statistics column present, in the order of the blocks. *)
Lemma set_sliders_conds (cfg : config) (u : ui) (st0 : state) (a : acc) :
  set_sliders cfg u st0 = POk a ->
  columns (docs_frame (st a)) = columns (docs_frame st0) /\
  map fst (conds a) = filter (fun s => s ∈ columns (docs_frame st0)) signal_order.
Proof.
  unfold set_sliders. intros H.
  destruct (when_present _ (number_words_block u) _) as [a1|e] eqn:E1; simpl in H; [|discriminate].
  destruct (when_present_step _ _ _ _ _ (number_words_block_spec u)
              (number_words_block_conds u) E1) as [C1 F1].
  destruct (when_present _ (repetitions_block u) _) as [a2|e] eqn:E2; simpl in H; [|discriminate].
  destruct (when_present_step _ _ _ _ _ (repetitions_block_spec u)
              (repetitions_block_conds u) E2) as [C2 F2].
  destruct (when_present _ (simple_block SpecialCharactersRatio _ _) _) as [a3|e] eqn:E3;
    simpl in H; [|discriminate].
  destruct (when_present_step _ _ _ _ _ (simple_block_spec SpecialCharactersRatio _ _)
              (simple_block_conds SpecialCharactersRatio _ _) E3) as [C3 F3].
  destruct (when_present _ (stopwords_block cfg u) _) as [a4|e] eqn:E4; simpl in H; [|discriminate].
  destruct (when_present_step _ _ _ _ _ (stopwords_block_spec cfg u)
              (stopwords_block_conds cfg u) E4) as [C4 F4].
  destruct (when_present _ (flagged_words_block cfg u) _) as [a5|e] eqn:E5; simpl in H; [|discriminate].
  destruct (when_present_step _ _ _ _ _ (flagged_words_block_spec cfg u)
              (flagged_words_block_conds cfg u) E5) as [C5 F5].
  destruct (when_present _ (simple_block LangIdScore _ _) _) as [a6|e] eqn:E6;
    simpl in H; [|discriminate].
  destruct (when_present_step _ _ _ _ _ (simple_block_spec LangIdScore _ _)
              (simple_block_conds LangIdScore _ _) E6) as [C6 F6].
  destruct (when_present_step _ _ _ _ _ (simple_block_spec PerplexityScore _ _)
              (simple_block_conds PerplexityScore _ _) H) as [C7 F7].
  simpl in C1, F1. split; [congruence|].
  rewrite F7, F6, F5, F4, F3, F2, F1, filter_signal_order, <- !app_assoc. reflexivity.
Qed.

Lemma signal_order_nodup : NoDup signal_order.
Proof. apply (bool_decide_unpack _). vm_compute. exact I. Qed.

End VisualizationMoreFacts.

(* ------------------------------------------------------------------ *)
(** ** Claims about the consolidation script *)

Module FinaliseClaims.
Import Finalise.

(** C3 (amended): building the canonical index over any permutation of
    the same id-carrying records gives the identical url -> (id, timestamp)
    index, since the per-url reduction is a maximum. *)
Theorem canonical_index_permutation_invariant (ds1 ds2 : list record)
    (Hperm : ds1 ≡ₚ ds2) :
  build_index ds1 = build_index ds2.
Proof. apply build_index_perm, Hperm. Qed.

Lemma canonical_index_permutation_invariant_witness :
  let ds1 := [mk_record "u1" 10 [] (Some 0%nat) None;
              mk_record "u1" 20 [] (Some 1%nat) None;
              mk_record "u2" 5 ["u1"] (Some 2%nat) None] in
  let ds2 := [mk_record "u2" 5 ["u1"] (Some 2%nat) None;
              mk_record "u1" 20 [] (Some 1%nat) None;
              mk_record "u1" 10 [] (Some 0%nat) None] in
  ds1 ≡ₚ ds2 /\ build_index ds1 = build_index ds2.
Proof.
  intros ds1 ds2.
  assert (Hp : ds1 ≡ₚ ds2).
  { unfold ds1, ds2.
    apply (Permutation_trans (l' := [mk_record "u1" 10 [] (Some 0%nat) None;
              mk_record "u2" 5 ["u1"] (Some 2%nat) None;
              mk_record "u1" 20 [] (Some 1%nat) None])).
    - apply perm_skip, perm_swap.
    - apply (Permutation_trans (l' := [mk_record "u2" 5 ["u1"] (Some 2%nat) None;
              mk_record "u1" 10 [] (Some 0%nat) None;
              mk_record "u1" 20 [] (Some 1%nat) None])).
      + apply perm_swap.
      + apply perm_skip, perm_swap. }
  split; [exact Hp | apply (canonical_index_permutation_invariant ds1 ds2 Hp)].
Defined.

(** C3 (counterexample): swapping two shards of the full consolidation
    changes the canonical id of "u1", because ids are positions in the
    concatenation. *)
Lemma consolidation_shard_order_changes_index :
  let s1 := [mk_record "u1" 10 [] None None] in
  let s2 := [mk_record "u1" 20 [] None None] in
  [s1; s2] ≡ₚ [s2; s1] /\
  consolidation_index [s1; s2] = POk {[ "u1" := (1%nat, 20%Z) ]} /\
  consolidation_index [s2; s1] = POk {[ "u1" := (0%nat, 20%Z) ]} /\
  consolidation_index [s1; s2] <> consolidation_index [s2; s1].
Proof.
  intros s1 s2.
  assert (H1 : consolidation_index [s1; s2] = POk {[ "u1" := (1%nat, 20%Z) ]})
    by reflexivity.
  assert (H2 : consolidation_index [s2; s1] = POk {[ "u1" := (0%nat, 20%Z) ]})
    by reflexivity.
  split; [apply perm_swap|]. split; [exact H1|]. split; [exact H2|].
  rewrite H1, H2. intros Heq.
  apply (f_equal (fun r : pyres index =>
           match r with POk m => m !! "u1" | PErr _ => None end)) in Heq.
  simpl in Heq. rewrite !lookup_singleton_eq in Heq. congruence.
Qed.

(** C4 (amended): consolidation never rejects its input; every record,
    whether or not it arrives with an id, leaves with its 0-based position
    in the concatenation as id. *)
Theorem consolidate_overwrites_incoming_ids (shards : list (list record)) :
  exists out, consolidate shards = POk out /\
    length out = length (concat shards) /\
    forall i r, concat shards !! i = Some r -> out !! i = Some (set_id r i).
Proof.
  eexists. split; [apply consolidate_eq|]. split; [apply length_zip_set_id|].
  intros i r Hi. apply (lookup_zip_set_id _ 0 i r Hi).
Qed.

(** C4 (counterexample): a record arriving with id 42 is renumbered to 0
    and no error is raised. *)
Lemma consolidate_renumbers_preexisting_id :
  let r := mk_record "u" 0 [] (Some 42%nat) None in
  (forall e, consolidate [[r]] <> PErr e) /\
  consolidate [[r]] = POk [mk_record "u" 0 [] (Some 0%nat) None].
Proof.
  intros r. assert (H : consolidate [[r]] = POk [mk_record "u" 0 [] (Some 0%nat) None])
    by reflexivity.
  split; [intros e; rewrite H; discriminate | exact H].
Qed.

(** C5 (code bug): on the spec's scenario the index is
    {u1:(1,20), u2:(2,5)} and the resolution computed for C is [1], but
    [consolidate] returns the rows without [external_ids], because the
    resolution is written into the per-row copies yielded by iterating
    the [Dataset]. *)
Lemma consolidate_external_ids_lost_on_scenario :
  let A := mk_record "u1" 10 [] None None in
  let B := mk_record "u1" 20 [] None None in
  let C := mk_record "u2" 5 ["u1"] None None in
  consolidation_index [[A; B; C]]
    = POk (<["u1" := (1%nat, 20%Z)]> {[ "u2" := (2%nat, 5%Z) ]}) /\
  compute_external_ids_on_list (ds_map_assign_id [A; B; C])
    = POk [set_external_ids (set_id A 0) []; set_external_ids (set_id B 1) [];
           set_external_ids (set_id C 2) [1%nat]] /\
  consolidate [[A; B; C]] = POk [set_id A 0; set_id B 1; set_id C 2] /\
  map external_ids [set_id A 0; set_id B 1; set_id C 2] = [None; None; None].
Proof. repeat split; reflexivity. Qed.

(** C8: consolidation gives every record its 0-based position in the
    concatenation of the shards, in their given order, as id: the
    record at position [i] of the concatenation is, with id [i] and
    otherwise unchanged, at position [i] of the id-assigned dataset the
    index is built from and of the output, which keeps these ids. Hence
    the ids are exactly 0 .. N-1, in order, and unique. *)
Theorem consolidate_ids_are_positions (shards : list (list record)) :
  exists out, consolidate shards = POk out /\
    length (ds_map_assign_id (concat shards)) = length (concat shards) /\
    length out = length (concat shards) /\
    (forall i r, concat shards !! i = Some r ->
       ds_map_assign_id (concat shards) !! i = Some (set_id r i) /\
       out !! i = Some (set_id r i)) /\
    map id_ (ds_map_assign_id (concat shards)) = map Some (seq 0 (length (concat shards))) /\
    map id_ out = map Some (seq 0 (length (concat shards))) /\
    NoDup (map id_ out).
Proof.
  eexists. split; [apply consolidate_eq|].
  rewrite ds_map_assign_id_eq.
  split; [apply length_zip_set_id|]. split; [apply length_zip_set_id|].
  split; [intros i r Hi; pose proof (lookup_zip_set_id _ 0 i r Hi) as Hl; split; exact Hl|].
  rewrite map_id_zip_set_id.
  split; [reflexivity|]. split; [reflexivity|].
  apply NoDup_fmap_2; [intros x y Hxy; congruence | apply NoDup_seq].
Qed.

(** C10: [get_args] fails with an assertion error exactly when the output
    dataset name is one of the names to concatenate, and otherwise returns
    the parsed arguments; [main] loads no dataset exactly in the failing
    case. *)
Theorem get_args_rejects_output_among_inputs
    (hub : string -> list record) (d s : string) :
  (get_args d s = PErr AssertionError <-> d ∈ py_split "," s) /\
  (forall a, get_args d s = POk a <-> ((d ∉ py_split "," s) /\ a = mk_args d (py_split "," s))) /\
  ((main hub d s).1 = [] <-> d ∈ py_split "," s) /\
  ((main hub d s).2 = PErr AssertionError <-> d ∈ py_split "," s).
Proof.
  unfold main, get_args. simpl.
  destruct (py_in d (py_split "," s)) eqn:Hin.
  - apply py_in_spec in Hin.
    split; [split; [intros _; exact Hin | intros _; reflexivity]|].
    split; [intros a; split; [discriminate | intros [Hn _]; contradiction]|].
    split; split; intros _; first [reflexivity | exact Hin].
  - assert (Hn : d ∉ py_split "," s) by (rewrite <- py_in_spec; congruence).
    rewrite consolidate_eq. simpl.
    split; [split; [discriminate | intros H; contradiction]|].
    split.
    { intros a. split.
      - intros Ha. injection Ha as <-. split; [exact Hn | reflexivity].
      - intros [_ ->]. reflexivity. }
    split; split; intros H; try contradiction; try discriminate.
    destruct (map LoadDataset (py_split "," s)); discriminate.
Qed.

End FinaliseClaims.

(* ------------------------------------------------------------------ *)
(** ** Claims about the filtering dashboard *)

Module VisualizationClaims.
Import Visualization VisualizationExamples VisualizationDisplay.

(** C1 (code bug): in [analyse_personal_doc] the lang-id rule tests the
    local [flagged_words_ratio] against its cutoff instead of the
    lang-id score computed just before. With a flagged-words rule
    (max 1) and a lang-id rule (min 0.5), the document "hello" with
    flagged-words ratio 0, predicted label "en" = target and score 0.9
    passes both rules as specified, yet the probe reports it discarded;
    without a flagged-words rule before it, the lang-id rule raises
    [UnboundLocalError]. *)
Lemma lang_id_rule_reads_flagged_words_ratio :
  is_doc_discarded flagged_key (round3 (compute_flagged_words_ratio (flt ex_cfg) [] "hello")) = false /\
  lang_id_discards_spec ex_cfg lang_key "hello" = false /\
  analyse_personal_doc ex_cfg [flagged_key; lang_key] "hello" = POk (Some true) /\
  analyse_personal_doc ex_cfg [lang_key] "hello" = PErr UnboundLocalError.
Proof. vm_compute. repeat split. Qed.

(** C2: after [set_sliders] succeeds, the mask [filtering_of_docs]
    computes has one entry per document of [self.docs], and document
    [i] is retained iff it passes every key of [self.keys]: a max-cutoff
    key iff its value is <= the cutoff, a min-cutoff key iff it is >=. *)
Theorem filtering_retains_iff_all_rules_pass (cfg : config) (u : ui) (st0 : state)
    (a : acc) (mask : list bool) :
  filtering_of_docs cfg u st0 = POk (a, mask) ->
  length mask = length (rows (docs_frame (st a))) /\
  forall i r, rows (docs_frame (st a)) !! i = Some r ->
    (mask !! i = Some true <-> Forall (fun k => rule_passes k r) (keys a)).
Proof.
  unfold filtering_of_docs. destruct (set_sliders cfg u st0) as [a'|e] eqn:E;
    simpl; intros H; [|discriminate]. injection H as <- <-.
  destruct (set_sliders_inv _ _ _ _ E) as (_ & Hconds & _).
  split; [by rewrite length_map, length_seq|].
  intros i r Hr. pose proof (lookup_lt_Some _ _ _ Hr) as Hi.
  rewrite map_fmap, list_lookup_fmap, lookup_seq_lt by exact Hi. simpl.
  rewrite <- (all_conds_forall _ i r _ _ Hr Hconds).
  unfold all_conds_at. split; [congruence | intros ->; reflexivity].
Qed.

Lemma filtering_retains_iff_all_rules_pass_witness :
  exists a mask, filtering_of_docs ex_cfg (ex_ui "10") (open_data ex_cfg ex_frame) = POk (a, mask) /\
    mask = [false; false; true] /\
    length mask = length (rows (docs_frame (st a))) /\
    forall i r, rows (docs_frame (st a)) !! i = Some r ->
      (mask !! i = Some true <-> Forall (fun k => rule_passes k r) (keys a)).
Proof.
  eexists _, _. split; [reflexivity|]. split; [reflexivity|].
  apply (filtering_retains_iff_all_rules_pass ex_cfg (ex_ui "10") (open_data ex_cfg ex_frame)).
  reflexivity.
Defined.

(** C6 (amended): each figure [set_sliders] displays for a key is the
    percentage of all documents of [self.docs] that fail that key's rule
    evaluated alone, whatever the other rules decide. *)
Theorem displayed_figure_is_isolated_discard_share (cfg : config) (u : ui) (st0 : state)
    (a : acc) :
  set_sliders cfg u st0 = POk a ->
  Forall2 (fun k p => (p == discard_share (docs_frame (st a)) k)%Q) (keys a) (captions a).
Proof.
  intros H. destruct (set_sliders_inv _ _ _ _ H) as (_ & _ & Hcap).
  eapply Forall2_impl; [exact Hcap|]. intros k p (c & Hc & ->).
  by apply discarded_pct_share.
Qed.

Lemma displayed_figure_is_isolated_discard_share_witness :
  exists a, set_sliders ex_cfg (ex_ui "10") (open_data ex_cfg ex_frame) = POk a /\
    Forall2 (fun k p => (p == discard_share (docs_frame (st a)) k)%Q) (keys a) (captions a).
Proof.
  eexists. split; [reflexivity|].
  apply (displayed_figure_is_isolated_discard_share ex_cfg (ex_ui "10") (open_data ex_cfg ex_frame)).
  reflexivity.
Defined.

(** C6 (counterexample): one document of three words. The
    number-of-words sliders then offer at most [int(3) + 1 = 4]; with the
    min-cutoff at 4 and the max-cutoff at 4, one document fails the min
    rule, but the figure displayed for it is 100 (percent), not the
    count 1. *)
Lemma displayed_figure_is_not_a_count :
  number_words_sliders_ok (docs_frame (open_data ex_cfg short_doc_frame)) short_doc_ui = true /\
  exists a, set_sliders ex_cfg short_doc_ui (open_data ex_cfg short_doc_frame) = POk a /\
    keys a = [mk_key NumberWords 4 false None; mk_key NumberWords 4 true None] /\
    length (filter (fun r => rule_fails_b (mk_key NumberWords 4 false None) r = true)
              (rows (docs_frame (st a)))) = 1%nat /\
    Forall2 Qeq (captions a) [100; 0]%Q /\
    ~ (100 == 1)%Q.
Proof.
  split; [reflexivity|].
  eexists. split; [reflexivity|]. vm_compute.
  split; [reflexivity|]. split; [reflexivity|]. split.
  - repeat constructor.
  - discriminate.
Qed.

(** C7 (code bug): [open_data] binds [self.docs] to the very DataFrame
    [self.docs_checkpoint] names, so the per-row loop of the repetitions
    block, which writes the selected ratio into [self.docs], also
    overwrites the dicts of the checkpoint. Before selecting n = 10 the
    checkpoint holds the ratio for n = 5; afterwards it only holds the
    n = 10 value, and indexing it by "5" (what the reset from the
    checkpoint followed by the loop does) raises [TypeError]. *)
Lemma repetitions_selection_overwrites_checkpoint :
  let st0 := open_data ex_cfg rep_frame in
  docs st0 = docs_checkpoint st0 /\
  map (select_repetitions "5") (rows (frame_at st0 (docs_checkpoint st0))) = [POk (CNum (1 # 10))] /\
  exists a, set_sliders ex_cfg (ex_ui "10") st0 = POk a /\
    read_col (frame_at (st a) (docs_checkpoint (st a))) RepetitionsRatio = [CNum (1 # 5)] /\
    map (select_repetitions "5") (rows (frame_at (st a) (docs_checkpoint (st a)))) = [PErr TypeError].
Proof.
  simpl. split; [reflexivity|]. split; [reflexivity|].
  eexists. split; [reflexivity|]. vm_compute. split; reflexivity.
Qed.

(** C9: swapping in an uploaded lexicon ([lexicon_swap], which the
    stopwords block runs with [StopwordsRatio] and
    [compute_stopwords_ratio] over the new lexicon, and the flagged-words
    block with [FlaggedWordsRatio] and [compute_flagged_words_ratio])
    always succeeds, recomputes column [s] of every document from its
    text, and leaves the texts, every other column, the rule evaluation
    of every key on another column and every other DataFrame unchanged. *)
Theorem lexicon_swap_recomputes_only_its_signal (s : signal) (h : string -> Q) (st0 : state) :
  exists st1, lexicon_swap s h st0 = POk st1 /\
    read_col (docs_frame st1) s = map (fun r => CNum (h (text r))) (rows (docs_frame st0)) /\
    map text (rows (docs_frame st1)) = map text (rows (docs_frame st0)) /\
    (forall t, t <> s -> read_col (docs_frame st1) t = read_col (docs_frame st0) t) /\
    (forall k, key_name k <> s -> get_cond (docs_frame st1) k = get_cond (docs_frame st0) k) /\
    docs st1 = docs st0 /\
    (forall j, j <> docs st0 -> frame_at st1 j = frame_at st0 j).
Proof.
  destruct (lexicon_swap_pure s h st0) as (st1 & Hrun & Hcol).
  destruct (lexicon_swap_agree _ _ _ _ Hrun) as (Hag & Hd & Hfr).
  exists st1. split; [exact Hrun|]. split; [exact Hcol|].
  destruct Hag as (Hc & Ht & Hr).
  split; [exact Ht|]. split; [exact Hr|].
  split; [intros k Hk; by apply (get_cond_agree s)|].
  split; [exact Hd | exact Hfr].
Qed.

End VisualizationClaims.

(* ------------------------------------------------------------------ *)
(** ** Further properties of the consolidation script *)

Module FinaliseExtras.
Import Finalise.

(** [get_args] keeps [--dataset] as given and splits
    [--datasets-to-concatenate] at every comma: there is at least one
    name, no name contains a comma, and joining the names with commas
    gives the argument back. *)
Theorem get_args_split_round_trip (dataset_arg dtc_arg : string) (a : args) :
  get_args dataset_arg dtc_arg = POk a ->
  dataset a = dataset_arg /\
  datasets_to_concatenate a <> [] /\
  Forall (fun p => ","%char ∉ String.list_ascii_of_string p) (datasets_to_concatenate a) /\
  String.concat (String ","%char EmptyString) (datasets_to_concatenate a) = dtc_arg.
Proof.
  unfold get_args. simpl. destruct (py_in dataset_arg (py_split "," dtc_arg)); [discriminate|].
  intros H. injection H as <-. simpl. split_and!.
  - reflexivity.
  - apply py_split_acc_nonempty.
  - apply py_split_acc_no_sep. intros Hin. inversion Hin.
  - apply py_split_acc_join.
Qed.

Lemma get_args_split_round_trip_witness :
  exists a, get_args "out" "a,b,,c" = POk a /\
    datasets_to_concatenate a = ["a"; "b"; ""; "c"] /\
    (dataset a = "out" /\
     datasets_to_concatenate a <> [] /\
     Forall (fun p => ","%char ∉ String.list_ascii_of_string p) (datasets_to_concatenate a) /\
     String.concat (String ","%char EmptyString) (datasets_to_concatenate a) = "a,b,,c").
Proof.
  eexists. split; [reflexivity|]. split; [reflexivity|].
  apply (get_args_split_round_trip "out" "a,b,,c"). reflexivity.
Defined.

(** The index loop of [compute_external_ids_] raises only [KeyError], and
    exactly when some row has no [id]. *)
Theorem build_index_error_iff_missing_id (ds : list record) (e : exn) :
  build_index ds = PErr e <-> e = KeyError /\ exists r, r ∈ ds /\ id_ r = None.
Proof.
  unfold build_index. rewrite mapM_row_keys.
  destruct (forallb has_id ds) eqn:E; simpl.
  - split; [discriminate|]. intros (_ & r & Hr & Hi).
    pose proof (proj1 (forallb_forall _ _) E r (proj1 (list_elem_of_In _ _) Hr)) as Hh.
    unfold has_id in Hh. by rewrite Hi in Hh.
  - split; [intros H; injection H as <-; split; [reflexivity|] | intros [-> _]; reflexivity].
    destruct (forallb_false_exists _ _ E) as (r & Hr & Hh).
    exists r. split; [exact Hr|]. unfold has_id in Hh. by destruct (id_ r).
Qed.

(** The canonical index built over rows that all carry an id has an
    entry for exactly the urls that occur, and the entry for a url is the
    [(id, fetch_time)] of one of its rows whose [(fetch_time, id)] is the
    lexicographic maximum over the rows with that url. *)
Theorem canonical_index_keeps_latest_fetch (ds : list record) (m : index) :
  build_index ds = POk m ->
  forall u, (m !! u = None <-> Forall (fun r => url r <> u) ds) /\
   forall i t, m !! u = Some (i, t) ->
     (exists r, r ∈ ds /\ url r = u /\ id_ r = Some i /\ fetch_time r = t) /\
     (forall r, r ∈ ds -> url r = u ->
        exists i', id_ r = Some i' /\ lex_le (fetch_time r, i') (t, i)).
Proof. apply build_index_spec. Qed.

Lemma canonical_index_keeps_latest_fetch_witness :
  let ds := [mk_record "u1" 10 [] (Some 0%nat) None; mk_record "u1" 20 [] (Some 1%nat) None;
             mk_record "u2" 5 ["u1"] (Some 2%nat) None] in
  exists m, build_index ds = POk m /\ m !! "u1" = Some (1%nat, 20%Z) /\
    forall u, (m !! u = None <-> Forall (fun r => url r <> u) ds) /\
     forall i t, m !! u = Some (i, t) ->
       (exists r, r ∈ ds /\ url r = u /\ id_ r = Some i /\ fetch_time r = t) /\
       (forall r, r ∈ ds -> url r = u ->
          exists i', id_ r = Some i' /\ lex_le (fetch_time r, i') (t, i)).
Proof.
  intros ds. eexists. split; [reflexivity|]. split; [reflexivity|].
  apply (canonical_index_keeps_latest_fetch ds). reflexivity.
Defined.

(** Over a whole consolidation the index never fails, and for each url
    that occurs it points at the position, in the concatenation of the
    shards, of the url's most recent fetch; among equally recent fetches
    it points at the last one. *)
Theorem consolidation_index_points_at_latest_fetch (shards : list (list record)) :
  exists m, consolidation_index shards = POk m /\
  forall u, (m !! u = None <-> Forall (fun r => url r <> u) (concat shards)) /\
   forall i t, m !! u = Some (i, t) ->
     exists r, concat shards !! i = Some r /\ url r = u /\ fetch_time r = t /\
       forall j r', concat shards !! j = Some r' -> url r' = u ->
         (fetch_time r' < t)%Z \/ (fetch_time r' = t /\ (j <= i)%nat).
Proof.
  unfold consolidation_index. rewrite ds_map_assign_id_eq.
  set (ds := concat shards).
  destruct (build_index (zip_with set_id ds (seq 0 (length ds)))) as [m|e] eqn:E.
  2:{ apply build_index_error_iff_missing_id in E as (_ & r & Hr & Hi).
      apply elem_of_zip_set_id in Hr as (j & r0 & _ & ->). discriminate. }
  exists m. split; [reflexivity|]. intros u.
  destruct (build_index_spec _ _ E u) as [Hnone Hsome]. split.
  - rewrite Hnone. apply Forall_url_zip_set_id.
  - intros i t Hm. destruct (Hsome i t Hm) as ((r & Hr & Hu & Hi & Ht) & Hmax).
    apply elem_of_zip_set_id in Hr as (j & r0 & Hj & ->). simpl in Hu, Hi, Ht.
    injection Hi as <-. exists r0. split_and!; [exact Hj | exact Hu | exact Ht |].
    intros j' r' Hj' Hu'.
    destruct (Hmax (set_id r' j')) as (i' & Hi' & Hle).
    + apply elem_of_zip_set_id. by exists j', r'.
    + exact Hu'.
    + simpl in Hi'. injection Hi' as <-. unfold lex_le in Hle. simpl in Hle. lia.
Qed.

(** On valid arguments [main] loads each named dataset once, in the
    given order, then pushes exactly once, to [--dataset], the rows of
    all the datasets in order with their positions as ids: no row is
    dropped, merged or otherwise changed. *)
Theorem main_loads_then_pushes_all_rows (hub : string -> list record) (d s : string) :
  d ∉ py_split "," s ->
  main hub d s =
    (map LoadDataset (py_split "," s) ++
       [PushToHub d (zip_with set_id (concat (map hub (py_split "," s)))
                       (seq 0 (length (concat (map hub (py_split "," s))))))],
     POk tt).
Proof.
  intros Hd. unfold main, get_args. simpl.
  destruct (py_in d (py_split "," s)) eqn:E.
  - apply py_in_spec in E. contradiction.
  - simpl. by rewrite consolidate_eq.
Qed.

Lemma main_loads_then_pushes_all_rows_witness :
  let hub := fun n : string => if bool_decide (n = "a") then [mk_record "u1" 1 [] None None]
                               else [mk_record "u2" 2 [] None None; mk_record "u1" 3 [] None None] in
  main hub "out" "a,b" =
    ([LoadDataset "a"; LoadDataset "b";
      PushToHub "out" [mk_record "u1" 1 [] (Some 0%nat) None; mk_record "u2" 2 [] (Some 1%nat) None;
                       mk_record "u1" 3 [] (Some 2%nat) None]], POk tt).
Proof.
  intros hub. rewrite (main_loads_then_pushes_all_rows hub "out" "a,b").
  - reflexivity.
  - intros Hin. apply py_in_spec in Hin. discriminate.
Defined.

(** Run over a list of rows that all carry an id (where the assignment
    in the second loop updates the row), [compute_external_ids_] leaves
    every other field alone and gives each row, as [external_ids], one id
    per entry of its [external_urls] that is the url of some row (in
    order, the others omitted): the id of a row with that url whose
    [(fetch_time, id)] is the greatest among them. *)
Theorem external_ids_resolve_known_urls (ds out : list record) :
  compute_external_ids_on_list ds = POk out ->
  Forall2 (fun r r' =>
     url r' = url r /\ fetch_time r' = fetch_time r /\
     external_urls r' = external_urls r /\ id_ r' = id_ r /\
     exists l, external_ids r' = Some l /\
       Forall2 (fun u x => exists r0, r0 ∈ ds /\ url r0 = u /\ id_ r0 = Some x /\
                  forall r1, r1 ∈ ds -> url r1 = u ->
                    exists i1, id_ r1 = Some i1 /\ lex_le (fetch_time r1, i1) (fetch_time r0, x))
         (filter (fun u => u ∈ map url ds) (external_urls r)) l) ds out.
Proof.
  unfold compute_external_ids_on_list.
  destruct (build_index ds) as [m|e] eqn:E; simpl; intros H; [|discriminate].
  injection H as <-. apply Forall2_map_r, Forall_forall. intros r _.
  simpl. split_and!; try reflexivity.
  eexists. split; [reflexivity|]. unfold resolved_ids.
  assert (Hf : filter (fun u => is_Some (m !! u)) (external_urls r)
             = filter (fun u => u ∈ map url ds) (external_urls r)).
  { apply list_filter_iff. intros u.
    destruct (build_index_spec _ _ E u) as [Hnone _].
    rewrite <- not_eq_None_Some, Hnone, map_fmap, list_elem_of_fmap, Forall_forall.
    split.
    - intros Hn. destruct (decide (u ∈ url <$> ds)) as [Hin|Hout].
      + by apply list_elem_of_fmap in Hin.
      + exfalso. apply Hn. intros r0 Hr0 Hu. apply Hout.
        apply list_elem_of_fmap. by exists r0.
    - intros (r0 & -> & Hr0) Hall. exact (Hall r0 Hr0 eq_refl). }
  rewrite Hf. rewrite map_fmap, Forall2_fmap_r.
  apply Forall_Forall2_diag, Forall_forall. intros u Hu.
  apply list_elem_of_filter in Hu as [Hu _].
  destruct (m !! u) as [[x t]|] eqn:Hm.
  - unfold compose. rewrite Hm. simpl. destruct (build_index_spec _ _ E u) as [_ Hsome].
    destruct (Hsome x t Hm) as ((r0 & Hr0 & Hu0 & Hx & Ht) & Hmax).
    exists r0. split_and!; [exact Hr0 | exact Hu0 | exact Hx |].
    rewrite Ht. exact Hmax.
  - exfalso. destruct (build_index_spec _ _ E u) as [Hnone _].
    apply Hnone in Hm. apply list_elem_of_fmap in Hu.
    destruct Hu as (r0 & -> & Hr0). rewrite Forall_forall in Hm. exact (Hm r0 Hr0 eq_refl).
Qed.

Lemma external_ids_resolve_known_urls_witness :
  let ds := [mk_record "u1" 10 [] (Some 0%nat) None; mk_record "u1" 20 [] (Some 1%nat) None;
             mk_record "u2" 5 ["u1"; "u3"] (Some 2%nat) None] in
  exists out, compute_external_ids_on_list ds = POk out /\
    map external_ids out = [Some []; Some []; Some [1%nat]] /\
    Forall2 (fun r r' =>
     url r' = url r /\ fetch_time r' = fetch_time r /\
     external_urls r' = external_urls r /\ id_ r' = id_ r /\
     exists l, external_ids r' = Some l /\
       Forall2 (fun u x => exists r0, r0 ∈ ds /\ url r0 = u /\ id_ r0 = Some x /\
                  forall r1, r1 ∈ ds -> url r1 = u ->
                    exists i1, id_ r1 = Some i1 /\ lex_le (fetch_time r1, i1) (fetch_time r0, x))
         (filter (fun u => u ∈ map url ds) (external_urls r)) l) ds out.
Proof.
  intros ds. eexists. split; [reflexivity|]. split; [reflexivity|].
  apply (external_ids_resolve_known_urls ds). reflexivity.
Defined.

(** [ds.map(assign_id, batched=True, with_indices=True)] gives every row
    its 0-based position as id, whatever the batch size. *)
Theorem assign_id_batched_gives_positions (batch_size : nat) (ds : list record) :
  (0 < batch_size)%nat ->
  map_batched_with_indices (length ds) batch_size 0 assign_id ds
  = zip_with set_id ds (seq 0 (length ds)).
Proof. intros Hbs. by apply map_batched_assign_id. Qed.

Lemma assign_id_batched_gives_positions_witness :
  let ds := [mk_record "a" 0 [] None None; mk_record "b" 0 [] (Some 7%nat) None;
             mk_record "c" 0 [] None None] in
  (0 < 2)%nat /\
  map_batched_with_indices (length ds) 2 0 assign_id ds
  = [mk_record "a" 0 [] (Some 0%nat) None; mk_record "b" 0 [] (Some 1%nat) None;
     mk_record "c" 0 [] (Some 2%nat) None].
Proof.
  intros ds. split; [lia|].
  rewrite (assign_id_batched_gives_positions 2 ds) by lia.
  reflexivity.
Defined.

End FinaliseExtras.

(* ------------------------------------------------------------------ *)
(** ** Further properties of visualization.py *)

Module VisualizationExtras.
Import Visualization VisualizationExamples VisualizationDisplay.





(** The repetitions block, run while [self.docs] is the checkpoint,
    succeeds only if every document's repetitions cell is a dict with the
    chosen length as key; then each document's cell becomes the value of
    that dict for that length, the number of documents is unchanged, and
    the last key is the max-cutoff rule on the repetitions ratio for that
    length. *)
Theorem repetitions_block_selects_chosen_length (u : ui) (a a' : acc) :
  docs (st a) = docs_checkpoint (st a) ->
  repetitions_block u a = POk a' ->
  length (rows (docs_frame (st a'))) = length (rows (docs_frame (st a))) /\
  last (keys a') = Some (mk_key RepetitionsRatio (cutoff_repetitions_ratio u) true
                           (Some (repetitions_length u))) /\
  forall i r, rows (docs_frame (st a)) !! i = Some r ->
    exists d v r', cells r RepetitionsRatio = CDict d /\
      dict_get d (repetitions_length u) = Some v /\
      rows (docs_frame (st a')) !! i = Some r' /\ cells r' RepetitionsRatio = CNum v.
Proof.
  intros Hd H. unfold repetitions_block in H.
  destruct (column_loop _ _ _) as [st2|e] eqn:E2; simpl in H; [|discriminate].
  destruct (add_rule _ (with_state a st2)) as [p|e] eqn:E; simpl in H; [|discriminate].
  injection H as <-. apply add_rule_spec in E as [_ Hp]. rewrite Hp. simpl.
  destruct (column_loop_agree _ _ _ _ E2) as (Ha2 & _ & _).
  destruct (reset_column_agree RepetitionsRatio (st a)) as (Ha1 & _ & _).
  split; [rewrite (agree_except_length _ _ _ Ha2); exact (agree_except_length _ _ _ Ha1)|].
  split; [by rewrite last_snoc|].
  intros i r Hr.
  destruct (reset_column_same RepetitionsRatio (st a) i r Hd Hr) as (r1 & Hr1 & Hc1).
  unfold column_loop in E2.
  destruct (iloc_loop_sets _ _ _ _ _ E2 (NoDup_seq _ _) i r1) as (c & r' & Hg & Hr' & Hc');
    [apply elem_of_seq; apply lookup_lt_Some in Hr1; lia | exact Hr1|].
  unfold select_repetitions in Hg. rewrite Hc1 in Hg.
  destruct (cells r RepetitionsRatio) as [q|d]; [discriminate|].
  destruct (dict_get d (repetitions_length u)) as [v|] eqn:Ev; [|discriminate].
  injection Hg as <-. exists d, v, r'. auto.
Qed.

Lemma repetitions_block_selects_chosen_length_witness :
  let a := mk_acc (open_data ex_cfg rep_frame) [] [] [] in
  exists a', repetitions_block (ex_ui "5") a = POk a' /\
    length (rows (docs_frame (st a'))) = 1%nat.
Proof.
  intros a. eexists. split; [reflexivity|].
  destruct (repetitions_block_selects_chosen_length (ex_ui "5") a _ eq_refl eq_refl) as [Hl _].
  rewrite Hl. reflexivity.
Defined.

(** Once the keys processed so far make the probe report a document as
    discarded, no further key makes it report the document as kept: if
    the keys [ks1 ++ ks2] keep it, so do the keys [ks1] alone. *)
Theorem probe_kept_by_all_kept_by_prefix (cfg : config) (ks1 ks2 : list key) (doc : string) :
  analyse_personal_doc cfg (ks1 ++ ks2) doc = POk (Some false) ->
  analyse_personal_doc cfg ks1 doc = POk (Some false).
Proof.
  unfold analyse_personal_doc. case_bool_decide; [discriminate|].
  rewrite foldM_app.
  destruct (foldM (analyse_key cfg doc) (mk_locals false None) ks1) as [l1|e]; simpl;
    [|discriminate].
  destruct (foldM (analyse_key cfg doc) l1 ks2) as [l2|e] eqn:E2; simpl; [|discriminate].
  intros Hl2. injection Hl2 as Hl2.
  destruct (is_discarded l1) eqn:Hd1; [|reflexivity].
  rewrite (foldM_analyse_keeps_discarded _ _ _ _ _ E2 Hd1) in Hl2. discriminate.
Qed.

Lemma probe_kept_by_all_kept_by_prefix_witness :
  analyse_personal_doc ex_cfg [flagged_key; mk_key NumberWords 0 false None] "hello" = POk (Some false) /\
  analyse_personal_doc ex_cfg [flagged_key] "hello" = POk (Some false).
Proof.
  split; [vm_compute; reflexivity|].
  apply (probe_kept_by_all_kept_by_prefix ex_cfg [flagged_key] [mk_key NumberWords 0 false None]).
  vm_compute. reflexivity.
Defined.

(** On a non-empty document, with every repetitions key carrying a
    length that [int] parses, the probe raises [UnboundLocalError]
    exactly when a lang-id key comes before any flagged-words key, and
    otherwise reports a verdict. *)
Theorem probe_raises_iff_lang_before_flagged (cfg : config) (ks : list key) (doc : string) :
  doc <> EmptyString ->
  Forall (fun k => key_name k = RepetitionsRatio ->
                   exists len n, key_len k = Some len /\ py_int len = POk n) ks ->
  if lang_before_flagged ks then analyse_personal_doc cfg ks doc = PErr UnboundLocalError
  else exists b, analyse_personal_doc cfg ks doc = POk (Some b).
Proof.
  intros Hdoc Hks. unfold analyse_personal_doc. rewrite bool_decide_false by exact Hdoc.
  destruct (foldM_analyse_outcome cfg doc ks Hks (mk_locals false None)) as [_ Hout].
  specialize (Hout eq_refl). destruct (lang_before_flagged ks).
  - rewrite Hout. reflexivity.
  - destruct Hout as [l ->]. simpl. eexists. reflexivity.
Qed.

Lemma probe_raises_iff_lang_before_flagged_witness :
  analyse_personal_doc ex_cfg [mk_key NumberWords 10 false None; lang_key; flagged_key] "hello"
    = PErr UnboundLocalError.
Proof.
  apply (probe_raises_iff_lang_before_flagged ex_cfg
           [mk_key NumberWords 10 false None; lang_key; flagged_key] "hello").
  - discriminate.
  - repeat constructor; discriminate.
Defined.

(** After [filtering_of_docs], the per-filter views of "Display discarded
    documents by filter" exist: one per statistics column present, in
    the order of the blocks, each a mask over all documents; and a
    document is discarded by the overall mask iff at least one of these
    views shows it. *)
Theorem per_filter_views_cover_discarded (cfg : config) (u : ui) (st0 : state)
    (a : acc) (mask : list bool) :
  filtering_of_docs cfg u st0 = POk (a, mask) ->
  exists views, discarded_by_filter (docs_frame (st a)) (conds a) = POk views /\
    map fst views = filter (fun s => s ∈ columns (docs_frame st0)) signal_order /\
    Forall (fun v => length v.2 = length mask) views /\
    forall i, (i < length mask)%nat ->
      (mask !! i = Some false <-> exists s v, (s, v) ∈ views /\ v !! i = Some true).
Proof.
  unfold filtering_of_docs. destruct (set_sliders cfg u st0) as [a0|e] eqn:E;
    simpl; intros H; [|discriminate]. injection H as <- <-.
  destruct (set_sliders_conds _ _ _ _ E) as [Hcol Hfst].
  set (n := length (rows (docs_frame (st a0)))).
  set (g := fun p : signal * list (list bool) => (p.1, map negb (np_all_axis0 p.2 n))).
  assert (Hnd : NoDup (map fst (conds a0)))
    by (rewrite Hfst; apply NoDup_filter, signal_order_nodup).
  assert (Hv : discarded_by_filter (docs_frame (st a0)) (conds a0) = POk (map g (conds a0))).
  { unfold discarded_by_filter. rewrite Hcol, <- Hfst. apply mapM_map_ok.
    intros [s l] Hin. simpl. rewrite (conds_get_nodup _ _ _ Hnd Hin). reflexivity. }
  exists (map g (conds a0)). split; [exact Hv|].
  split; [rewrite map_map; exact Hfst|].
  split.
  - apply Forall_forall. intros v Hin. apply list_elem_of_In, in_map_iff in Hin as ([s l] & <- & _).
    simpl. unfold np_all_axis0. rewrite !length_map, !length_seq. reflexivity.
  - intros i Hi. rewrite length_map, length_seq in Hi.
    rewrite map_fmap, list_lookup_fmap, lookup_seq_lt by exact Hi. simpl.
    unfold all_conds_at. rewrite forallb_concat_snd.
    split.
    + intros Hf. injection Hf as Hf. apply forallb_false_iff in Hf as ([s l] & Hin & Hfl).
      exists s, (map negb (np_all_axis0 l n)). split.
      * apply list_elem_of_In, in_map_iff. exists (s, l). split; [reflexivity|].
        by apply list_elem_of_In.
      * rewrite map_fmap, list_lookup_fmap, lookup_np_all_axis0 by exact Hi.
        simpl in Hfl. simpl. by rewrite Hfl.
    + intros (s & v & Hin & Hvi). f_equal. apply forallb_false_iff.
      apply list_elem_of_In, in_map_iff in Hin as ([s' l] & Hg & Hin).
      injection Hg as _ <-. exists (s', l). split; [by apply list_elem_of_In|].
      rewrite map_fmap, list_lookup_fmap, lookup_np_all_axis0 in Hvi by exact Hi.
      injection Hvi as Hvi. simpl. by destruct (forallb _ l).
Qed.

Lemma per_filter_views_cover_discarded_witness :
  exists a mask views,
    filtering_of_docs ex_cfg (ex_ui "10") (open_data ex_cfg ex_frame) = POk (a, mask) /\
    discarded_by_filter (docs_frame (st a)) (conds a) = POk views /\
    map fst views = [NumberWords; SpecialCharactersRatio].
Proof.
  destruct (filtering_of_docs ex_cfg (ex_ui "10") (open_data ex_cfg ex_frame)) as [[a mask]|e] eqn:E;
    [|discriminate].
  destruct (per_filter_views_cover_discarded _ _ _ _ _ E) as (views & Hv & Hfst & _).
  exists a, mask, views. split; [reflexivity|]. split; [exact Hv|]. rewrite Hfst. reflexivity.
Defined.

End VisualizationExtras.
